(** * Persistent phylogeny: the Hasse diagram of a red-black graph and the
      command-line driver

    A shallow embedding of [hdgraph.hpp], [hdgraph.cpp] and [main.cpp]:
    the Hasse diagram container with its overloaded [add_vertex] and
    [add_edge], the inclusion test [is_included], the builder
    [hasse_diagram] with its closing transitive reduction, and the per-file
    loop of [main] with its output lines.

    Vertex descriptors of both graphs are positions in the vertex list (the
    source keeps vertices in a [std::list], in creation order); an edge
    descriptor of the Hasse diagram is its pair (source, target), which is
    what identifies an edge in an out-edge container that is a set. *)

From Stdlib Require Import List Bool Arith Lia.
From stdpp Require Import base option list sorting gmap strings.

Import ListNotations.
Local Open Scope nat_scope.

(** ** Part I. Definitions *)

(** *** Red-black graph *)

Module RBG.

(** Modelled from the spec: the colour of an edge of the red-black graph
    ([rbgraph.hpp] is not among the sources; the test of [is_universal]
    writes [g[a].color = RED]). *)
Inductive Color := BLACK | RED.

(** Modelled from the spec: the kind of a vertex; a fresh vertex is a
    species, the test turns it into a character with
    [g[c].type = CHARACTER]. *)
Inductive VertexType := SPECIES | CHARACTER.

Abbreviation RBVertex := nat.

(** Modelled from the spec: bundled vertex properties (display name and
    kind). *)
Record RBVertexProperties := {
  name : string;
  type : VertexType
}.

(** Modelled from the spec: bundled graph properties, the fields
    [num_species] and [num_characters]; the test sets both by hand after
    adding the vertices. *)
Record RBGraphProperties := {
  num_species_field : nat;
  num_characters_field : nat
}.

(** A stored vertex: its bundle and its out-edges, each a target and a
    colour, in the order in which [out_edges] iterates them. *)
Record stored_vertex := {
  m_property : RBVertexProperties;
  m_out_edges : list (RBVertex * Color)
}.

(** Modelled from the spec: the red-black graph, an adjacency list with
    bundled properties. *)
Record RBGraph := {
  m_vertices : list stored_vertex;
  m_graph_property : RBGraphProperties
}.

#[global] Instance RBVertexProperties_inhabited : Inhabited RBVertexProperties :=
  populate {| name := ""; type := SPECIES |}.

#[global] Instance stored_vertex_inhabited : Inhabited stored_vertex :=
  populate {| m_property := inhabitant; m_out_edges := [] |}.

(** [vertices(g)] *)
Definition vertices (g : RBGraph) : list RBVertex := seq 0 (length (m_vertices g)).

(** [g[v]] *)
Definition bundle (g : RBGraph) (v : RBVertex) : RBVertexProperties :=
  m_property (m_vertices g !!! v).

(** the target of every edge of [out_edges(v, g)], in iteration order *)
Definition out_targets (v : RBVertex) (g : RBGraph) : list RBVertex :=
  fst <$> m_out_edges (m_vertices g !!! v).

(** Modelled from the spec: [is_species(v, g)], by kind. *)
Definition is_species (v : RBVertex) (g : RBGraph) : bool :=
  match type (bundle g v) with SPECIES => true | CHARACTER => false end.

(** Modelled from the spec: [num_species(g)] reads the graph bundle. *)
Definition num_species (g : RBGraph) : nat := num_species_field (m_graph_property g).

(** Modelled from the spec: [ascending_size], the comparison handed to
    [std::sort] ("sort species by |C(s)| ascending"). *)
Definition ascending_size (a b : list RBVertex) : bool := length a <? length b.

(** The species vertices of [g], in vertex order. *)
Definition species_of (g : RBGraph) : list RBVertex :=
  filter (fun v => is_species v g = true) (vertices g).

(** The names of the vertices adjacent to [v], in out-edge order. *)
Definition adjacent_names (g : RBGraph) (v : RBVertex) : list string :=
  (fun cv => name (bundle g cv)) <$> out_targets v g.

End RBG.

(** *** Hasse diagram: data structures of [hdgraph.hpp] *)

Module Hasse.
Import RBG.

Inductive State := lose | gain.

Record SignedCharacter := {
  character : string;
  state : State
}.

Record HDEdgeProperties := {
  signedcharacters : list SignedCharacter
}.

Record HDVertexProperties := {
  species : list string;
  characters : list string
}.

(** The two pointers are null in a fresh diagram. *)
Record HDGraphProperties := {
  g : option RBGraph;
  gm : option RBGraph;
  num_v : nat
}.

Abbreviation HDVertex := nat.
Abbreviation HDEdge := (HDVertex * HDVertex)%type.

(** [boost::adjacency_list<setS, listS, bidirectionalS, ...>]: the vertex
    list in creation order, the edges with their bundles in creation order,
    and the graph bundle. *)
Record HDGraph := {
  hd_vertices : list HDVertexProperties;
  hd_edges : list (HDEdge * HDEdgeProperties);
  hd_property : HDGraphProperties
}.

#[global] Instance State_eq_dec : EqDecision State.
Proof. solve_decision. Defined.

#[global] Instance SignedCharacter_eq_dec : EqDecision SignedCharacter.
Proof. solve_decision. Defined.

#[global] Instance HDVertexProperties_inhabited : Inhabited HDVertexProperties :=
  populate {| species := []; characters := [] |}.

(** A default-constructed diagram whose [num_v] holds [n]. *)
Definition empty_diagram (n : nat) : HDGraph :=
  {| hd_vertices := [];
     hd_edges := [];
     hd_property := {| g := None; gm := None; num_v := n |} |}.

(** **** Boost primitives on the diagram *)

Definition vertices (hasse : HDGraph) : list HDVertex :=
  seq 0 (length (hd_vertices hasse)).

(** [hasse[v]] *)
Definition vertex_bundle (hasse : HDGraph) (v : HDVertex) : HDVertexProperties :=
  hd_vertices hasse !!! v.

Definition source (e : HDEdge) : HDVertex := fst e.
Definition target (e : HDEdge) : HDVertex := snd e.

(** [edge(u, v, hasse)]: the descriptor and whether the edge exists. *)
Definition edge (u v : HDVertex) (hasse : HDGraph) : HDEdge * bool :=
  ((u, v), bool_decide ((u, v) ∈ (fst <$> hd_edges hasse))).

(** [hasse[e].signedcharacters] *)
Definition edge_label (hasse : HDGraph) (e : HDEdge) : option (list SignedCharacter) :=
  signedcharacters <$> (snd <$> find (fun x => bool_decide (fst x = e)) (hd_edges hasse)).

Definition out_edges (u : HDVertex) (hasse : HDGraph) : list HDEdge :=
  filter (fun e => source e = u) ((fst <$> hd_edges hasse)).

Definition in_edges (u : HDVertex) (hasse : HDGraph) : list HDEdge :=
  filter (fun e => target e = u) ((fst <$> hd_edges hasse)).

Definition out_degree (u : HDVertex) (hasse : HDGraph) : nat := length (out_edges u hasse).
Definition in_degree (u : HDVertex) (hasse : HDGraph) : nat := length (in_edges u hasse).

(** [boost::add_vertex(hasse)]: a new vertex with a default bundle, at the
    end of the vertex list. *)
Definition boost_add_vertex (hasse : HDGraph) : HDVertex * HDGraph :=
  (length (hd_vertices hasse),
   {| hd_vertices := hd_vertices hasse ++ [inhabitant];
      hd_edges := hd_edges hasse;
      hd_property := hd_property hasse |}).

(** [boost::add_edge(u, v, hasse)] on a set-based out-edge list: an edge
    that is already present is returned with the flag false, otherwise a
    new edge with a default bundle is inserted. *)
Definition boost_add_edge (u v : HDVertex) (hasse : HDGraph) : HDEdge * bool * HDGraph :=
  if bool_decide ((u, v) ∈ (fst <$> hd_edges hasse))
  then ((u, v), false, hasse)
  else ((u, v), true,
        {| hd_vertices := hd_vertices hasse;
           hd_edges := hd_edges hasse ++ [((u, v), {| signedcharacters := [] |})];
           hd_property := hd_property hasse |}).

(** [remove_edge(e, hasse)] *)
Definition remove_edge (e : HDEdge) (hasse : HDGraph) : HDGraph :=
  {| hd_vertices := hd_vertices hasse;
     hd_edges := filter (fun x => fst x ≠ e) (hd_edges hasse);
     hd_property := hd_property hasse |}.

(** Assignment through [hasse[v]]. *)
Definition update_vertex (f : HDVertexProperties -> HDVertexProperties)
    (v : HDVertex) (hasse : HDGraph) : HDGraph :=
  {| hd_vertices := alter f v (hd_vertices hasse);
     hd_edges := hd_edges hasse;
     hd_property := hd_property hasse |}.

(** Assignment through [hasse[e]]. *)
Definition update_edge (f : list SignedCharacter -> list SignedCharacter)
    (e : HDEdge) (hasse : HDGraph) : HDGraph :=
  {| hd_vertices := hd_vertices hasse;
     hd_edges := (fun x => if bool_decide (fst x = e)
                           then (fst x, {| signedcharacters := f (signedcharacters (snd x)) |})
                           else x) <$> hd_edges hasse;
     hd_property := hd_property hasse |}.

(** **** Overloads of [hdgraph.cpp] *)

(** [add_vertex(species, characters, hasse)] *)
Definition add_vertex (sp : list string) (chars : list string) (hasse : HDGraph)
    : HDVertex * HDGraph :=
  let '(v, hasse1) := boost_add_vertex hasse in
  let hasse2 := update_vertex (fun p => {| species := sp; characters := characters p |}) v hasse1 in
  let hasse3 := update_vertex (fun p => {| species := species p; characters := chars |}) v hasse2 in
  (v, hasse3).

(** The inline overload taking one species name. *)
Definition add_vertex1 (sp : string) (chars : list string) (hasse : HDGraph)
    : HDVertex * HDGraph :=
  add_vertex [sp] chars hasse.

(** [add_edge(u, v, signedcharacters, hasse)] *)
Definition add_edge (u v : HDVertex) (scs : list SignedCharacter) (hasse : HDGraph)
    : HDEdge * bool * HDGraph :=
  let '(e, exists_, hasse1) := boost_add_edge u v hasse in
  let hasse2 := update_edge (fun _ => scs) e hasse1 in
  (e, exists_, hasse2).

(** [num_vertices(hasse)] of [hdgraph.hpp] *)
Definition num_vertices (hasse : HDGraph) : nat := num_v (hd_property hasse).

(** **** Printing *)

(** [operator<<] for [State] *)
Definition print_State (s : State) : string :=
  let sign := match s with lose => true | gain => false end in
  if sign then "-" else "+".

(** [operator<<] for [SignedCharacter] *)
Definition print_SignedCharacter (sc : SignedCharacter) : string :=
  character sc +:+ print_State (state sc).

(** **** [is_included] *)

(** [std::find(b.begin(), b.end(), x) != b.end()] *)
Definition found (x : string) (b : list string) : bool := bool_decide (x ∈ b).

Fixpoint is_included (a b : list string) : bool :=
  match a with
  | [] => true
  | i :: a' => if negb (found i b) then false else is_included a' b
  end.

End Hasse.

(** *** The builder [hasse_diagram] of [hdgraph.cpp] *)

Module Builder.
Import RBG Hasse.

(** An access outside a container ([sets[index]] past the end, [front()] of
    an empty list) is undefined in the source; the embedding returns [None]
    there. *)

(** [sets[index].push_back(x)] *)
Definition sets_push_back (index : nat) (x : RBVertex) (sets : list (list RBVertex))
    : option (list (list RBVertex)) :=
  if bool_decide (index < length sets)
  then Some (alter (fun l => l ++ [x]) index sets)
  else None.

(** [v_map[v].push_back(x)]; [operator[]] of [std::map] creates an empty
    list for a key that is absent. *)
Definition v_map_push_back (v x : RBVertex) (v_map : gmap RBVertex (list RBVertex))
    : gmap RBVertex (list RBVertex) :=
  <[v := (v_map !!! v) ++ [x]]> v_map.

(** The loop over the out-edges of a species [v]. *)
Fixpoint collect_out_edges (index : nat) (v : RBVertex) (targets : list RBVertex)
    (sets : list (list RBVertex)) (v_map : gmap RBVertex (list RBVertex))
    : option (list (list RBVertex) * gmap RBVertex (list RBVertex)) :=
  match targets with
  | [] => Some (sets, v_map)
  | vt :: rest =>
      sets1 ← sets_push_back index vt sets;
      collect_out_edges index v rest sets1 (v_map_push_back v vt v_map)
  end.

(** The loop over the vertices of [g] that fills [sets] and [v_map]. *)
Fixpoint collect_species (g : RBGraph) (vs : list RBVertex) (index : nat)
    (sets : list (list RBVertex)) (v_map : gmap RBVertex (list RBVertex))
    : option (list (list RBVertex) * gmap RBVertex (list RBVertex)) :=
  match vs with
  | [] => Some (sets, v_map)
  | v :: rest =>
      if negb (is_species v g) then collect_species g rest index sets v_map
      else
        sets1 ← sets_push_back index v sets;
        '(sets2, v_map2) ← collect_out_edges index v (out_targets v g) sets1 v_map;
        collect_species g rest (S index) sets2 v_map2
  end.

(** [std::sort(first, last, comp)], as an insertion sort. The standard leaves
    the relative order of equivalent elements open; this one keeps it, as
    the insertion sort that libstdc++ runs on up to 16 entries does. On
    more entries an implementation may leave entries of the same size in
    another order: the order of the vertices of the same size, and of the
    species names inside a vertex, is then another one. The properties of
    [hasse_diagram] below are proved from [build_pairs] on an arbitrary
    arrangement of the species and from what every sort gives (a
    permutation, ascending in size), never from the order of the ties. *)
Fixpoint sort_insert {A} (comp : A -> A -> bool) (x : A) (l : list A) : list A :=
  match l with
  | [] => [x]
  | y :: l' => if comp y x then y :: sort_insert comp x l' else x :: y :: l'
  end.

Fixpoint std_sort {A} (comp : A -> A -> bool) (l : list A) : list A :=
  match l with
  | [] => []
  | x :: l' => sort_insert comp x (std_sort comp l')
  end.

(** The loop over [lcv] that queues one pair per character of [lcv] that
    [lhdv] lacks. *)
Fixpoint queue_missing (hdv : HDVertex) (lhdv : list string) (lcv : list string)
    (new_edges : list (HDVertex * string)) : list (HDVertex * string) :=
  match lcv with
  | [] => new_edges
  | ci :: rest =>
      if negb (found ci lhdv)
      then queue_missing hdv lhdv rest (new_edges ++ [(hdv, ci)])
      else queue_missing hdv lhdv rest new_edges
  end.

(** The loop over [new_edges]: the two-argument [add_edge] of the library,
    then [push_back] on the label of the edge it returns. *)
Fixpoint add_new_edges (u : HDVertex) (new_edges : list (HDVertex * string))
    (hasse : HDGraph) : HDGraph :=
  match new_edges with
  | [] => hasse
  | ei :: rest =>
      let '(e, _, hasse1) := boost_add_edge (fst ei) u hasse in
      let hasse2 :=
        update_edge (fun l => l ++ [{| character := snd ei; state := gain |}]) e hasse1 in
      add_new_edges u rest hasse2
  end.

(** The loop over the vertices [hdvs] of the diagram for one species named
    [v_name] with character names [lcv]. Both exits of the loop are a
    [break]; the diagram is only written to right before one. *)
Fixpoint scan_vertices (v_name : string) (lcv : list string) (hdvs : list HDVertex)
    (new_edges : list (HDVertex * string)) (hasse : HDGraph) : HDGraph :=
  match hdvs with
  | [] => hasse
  | hdv :: rest =>
      if bool_decide (lcv = characters (vertex_bundle hasse hdv))
      then update_vertex
             (fun p => {| species := species p ++ [v_name]; characters := characters p |})
             hdv hasse
      else
        let lhdv := characters (vertex_bundle hasse hdv) in
        let new_edges1 :=
          if is_included lhdv lcv then queue_missing hdv lhdv lcv new_edges
          else new_edges in
        match rest with
        | [] =>
            let '(u, hasse1) := add_vertex1 v_name lcv hasse in
            add_new_edges u new_edges1 hasse1
        | _ :: _ => scan_vertices v_name lcv rest new_edges1 hasse
        end
  end.

(** One iteration of the loop over [sets], for the species named [v_name]
    with character names [lcv]. *)
Definition insert_species (i : nat) (v_name : string) (lcv : list string)
    (hasse : HDGraph) : HDGraph :=
  if i =? 0 then snd (add_vertex1 v_name lcv hasse)
  else scan_vertices v_name lcv (vertices hasse) [] hasse.

(** The loop over [sets], from index [i] on. *)
Fixpoint build (g : RBGraph) (v_map : gmap RBVertex (list RBVertex)) (i : nat)
    (sets : list (list RBVertex)) (hasse : HDGraph) : option HDGraph :=
  match sets with
  | [] => Some hasse
  | s :: rest =>
      v ← head s;
      let lcv := (fun cv => name (bundle g cv)) <$> (v_map !!! v) in
      build g v_map (S i) rest (insert_species i (name (bundle g v)) lcv hasse)
  end.

(** The innermost loop of the transitive reduction: for the in-edge [ie],
    over the out-edges [oes] of the vertex. *)
Fixpoint reduce_out_edges (ie : HDEdge) (oes : list HDEdge) (hasse : HDGraph) : HDGraph :=
  match oes with
  | [] => hasse
  | oe :: rest =>
      let '(e, exists_) := edge (source ie) (target oe) hasse in
      if negb exists_ then reduce_out_edges ie rest hasse
      else reduce_out_edges ie rest (remove_edge e hasse)
  end.

(** The loop over the in-edges [ies] of [u]; the out-edges of [u] are read
    again at every round. An edge that the loop removes leads from the
    source of an in-edge of [u] to the target of an out-edge of [u]; as long
    as [u] has no edge to itself it is not an edge of [u], and the iterators
    over the edges of [u] stay valid. *)
Fixpoint reduce_in_edges (u : HDVertex) (ies : list HDEdge) (hasse : HDGraph) : HDGraph :=
  match ies with
  | [] => hasse
  | ie :: rest => reduce_in_edges u rest (reduce_out_edges ie (out_edges u hasse) hasse)
  end.

(** The body of the loop over the vertices. *)
Definition reduce_vertex (u : HDVertex) (hasse : HDGraph) : HDGraph :=
  if (in_degree u hasse =? 0) || (out_degree u hasse =? 0) then hasse
  else reduce_in_edges u (in_edges u hasse) hasse.

(** The closing loop of [hasse_diagram]: transitive reduction. *)
Fixpoint reduce_vertices (us : list HDVertex) (hasse : HDGraph) : HDGraph :=
  match us with
  | [] => hasse
  | u :: rest => reduce_vertices rest (reduce_vertex u hasse)
  end.

(** [hasse_diagram(hasse, g)], as [hdgraph.cpp] defines it (the header
    declares a third parameter [gm], which the definition does not have). *)
Definition hasse_diagram (hasse : HDGraph) (g : RBGraph) : option HDGraph :=
  '(sets, v_map) ← collect_species g (RBG.vertices g) 0 (replicate (num_species g) []) ∅;
  let sorted := std_sort ascending_size sets in
  hasse1 ← build g v_map 0 sorted hasse;
  Some (reduce_vertices (vertices hasse1) hasse1).

(** The diagram before the closing loop, for any arrangement of the species:
    the loop over [sets] run on the pairs (species name, character names). *)
Fixpoint build_pairs (i : nat) (pairs : list (string * list string)) (hasse : HDGraph)
    : HDGraph :=
  match pairs with
  | [] => hasse
  | p :: rest => build_pairs (S i) rest (insert_species i (fst p) (snd p) hasse)
  end.

(** The pair (species name, character names) that the loop over [sets]
    works on for the entry [s]. *)
Definition species_pair (g : RBGraph) (v_map : gmap RBVertex (list RBVertex))
    (s : list RBVertex) : option (string * list string) :=
  match head s with
  | Some v => Some (name (bundle g v), (fun cv => name (bundle g cv)) <$> (v_map !!! v))
  | None => None
  end.

End Builder.

(** *** Predicates used to state the properties *)

Module Props.
Import RBG Hasse Builder.

(** [a] is included in [b] and [b] has a name that [a] lacks. *)
Definition strictly_included (a b : list string) : bool :=
  is_included a b && negb (is_included b a).

(** The names of [lcv] that [lhdv] lacks, in the order of [lcv]. *)
Definition missing (lhdv lcv : list string) : list string :=
  filter (fun c => c ∉ lhdv) lcv.

(** Each name tagged [gain]. *)
Definition gained (cs : list string) : list SignedCharacter :=
  (fun c => {| character := c; state := gain |}) <$> cs.

(** The label as the specification words it: the names of [lcv] that
    [lhdv] lacks, sorted by name, each tagged [gain]. *)
Definition sorted_gained (lhdv lcv : list string) : list SignedCharacter :=
  gained (std_sort String.ltb (missing lhdv lcv)).

(** There is an edge from [u] to [v]. *)
Definition has_edge (hasse : HDGraph) (u v : HDVertex) : Prop :=
  (u, v) ∈ (fst <$> hd_edges hasse).

(** There is an edge from [u] to [v] that carries the label [l]. *)
Definition labelled_edge (hasse : HDGraph) (u v : HDVertex) (l : list SignedCharacter)
    : Prop :=
  ((u, v), {| signedcharacters := l |}) ∈ hd_edges hasse.

(** A directed path of [n] edges, [n] at least one. *)
Inductive path (hasse : HDGraph) : nat -> HDVertex -> HDVertex -> Prop :=
| path_edge u v : has_edge hasse u v -> path hasse 1 u v
| path_step n u w v : has_edge hasse u w -> path hasse n w v -> path hasse (S n) u v.

Definition acyclic (hasse : HDGraph) : Prop :=
  forall n v, ~ path hasse n v v.

Definition transitively_reduced (hasse : HDGraph) : Prop :=
  forall n u v, 2 <= n -> has_edge hasse u v -> ~ path hasse n u v.

(** The number of edges from [u] to [v]. *)
Definition edge_count (hasse : HDGraph) (u v : HDVertex) : nat :=
  length (filter (fun e => e = (u, v)) ((fst <$> hd_edges hasse))).

(** What the diagram holds before the closing loop of [hasse_diagram]: edges
    lead from a vertex to one created later, no two share their ends, and
    they are exactly the strict inclusions, labelled by the names gained. *)
Record closed_diagram (hasse : HDGraph) : Prop := {
  edges_forward : forall e p, (e, p) ∈ hd_edges hasse ->
      fst e < snd e /\ snd e < length (hd_vertices hasse);
  edges_nodup : NoDup ((fst <$> hd_edges hasse));
  edges_sound : forall e p, (e, p) ∈ hd_edges hasse ->
      strictly_included (characters (vertex_bundle hasse (fst e)))
                        (characters (vertex_bundle hasse (snd e))) = true /\
      signedcharacters p = gained (missing (characters (vertex_bundle hasse (fst e)))
                                           (characters (vertex_bundle hasse (snd e))));
  edges_complete : forall u v, u < v -> v < length (hd_vertices hasse) ->
      strictly_included (characters (vertex_bundle hasse u))
                        (characters (vertex_bundle hasse v)) = true ->
      has_edge hasse u v;
  characters_nodup : NoDup (characters <$> hd_vertices hasse)
}.

(** The names queued for the source [k] when the new vertex has the names
    [lcv]. *)
Definition queued (hasse : HDGraph) (lcv : list string) (k : HDVertex) : list string :=
  if is_included (characters (vertex_bundle hasse k)) lcv
  then missing (characters (vertex_bundle hasse k)) lcv
  else [].

(** The edge the loop over [new_edges] builds for the source [k]. *)
Definition new_edge (u : HDVertex) (cs : list string) (k : HDVertex)
    : list (HDEdge * HDEdgeProperties) :=
  match cs with
  | [] => []
  | _ :: _ => [((k, u), {| signedcharacters := gained cs |})]
  end.

(** [hasse'] is [hasse] without some of the edges whose source is in
    [sources]. *)
Definition removes_only (sources : list HDVertex) (hasse hasse' : HDGraph) : Prop :=
  hd_vertices hasse' = hd_vertices hasse /\
  hd_property hasse' = hd_property hasse /\
  (forall x, x ∈ hd_edges hasse' -> x ∈ hd_edges hasse) /\
  (forall x, x ∈ hd_edges hasse -> fst (fst x) ∉ sources -> x ∈ hd_edges hasse').

(** The entry of [sets] for the species [v]: the species, then the
    targets of its out-edges. *)
Definition species_set (g : RBGraph) (v : RBVertex) : list RBVertex :=
  v :: out_targets v g.

(** The diagram has a vertex with the character names [lcv] that lists the
    species [v_name]. *)
Definition represents (hasse : HDGraph) (v_name : string) (lcv : list string) : Prop :=
  exists k hv, hd_vertices hasse !! k = Some hv /\ characters hv = lcv /\ v_name ∈ species hv.

(** The out-edges of every vertex iterate in ascending order of the target
    descriptor, without repetition (an ordered set of out-edges, as the
    Hasse diagram has), and their targets are vertices of the graph. *)
Definition ordered_out_edges (g : RBGraph) : Prop :=
  forall v, v < length (m_vertices g) ->
    StronglySorted lt (out_targets v g) /\
    Forall (fun t => t < length (m_vertices g)) (out_targets v g).

(** The vertices have pairwise different names. *)
Definition distinct_names (g : RBGraph) : Prop :=
  NoDup ((fun sv => name (m_property sv)) <$> m_vertices g).

(** The counter [num_species] of the graph bundle is the number of species
    vertices. *)
Definition species_counted (g : RBGraph) : Prop :=
  num_species g = length (species_of g).

End Props.

(** *** The driver of [main.cpp] *)

Module Ppp.
Import RBG Hasse.

(** The value an option holds in the variables map: the flag of a
    [bool_switch], the list of input files, or nothing (as for [--help]). *)
Inductive option_value :=
| switch_value (b : bool)
| files_value (l : list string)
| no_value.

Record variable_value := {
  value : option_value;
  defaulted : bool
}.

#[global] Instance variable_value_inhabited : Inhabited variable_value :=
  populate {| value := no_value; defaulted := false |}.

(** [variables_map] is a [std::map] from option names to values. *)
Abbreviation variables_map := (gmap string variable_value).

(** [vm.count(opt)] *)
Definition count (vm : variables_map) (opt : string) : nat :=
  match vm !! opt with Some _ => 1 | None => 0 end.

(** [vm[opt]] *)
Definition at_ (vm : variables_map) (opt : string) : variable_value := vm !!! opt.

Definition as_bool (v : variable_value) : bool :=
  match value v with switch_value b => b | _ => false end.

Definition as_files (v : variable_value) : list string :=
  match value v with files_value l => l | _ => [] end.

(** [conflicting_options]: [Some what] when it throws [std::logic_error]. *)
Definition conflicting_options (vm : variables_map) (opt1 opt2 : string) : option string :=
  if negb (count vm opt1 =? 0) && negb (defaulted (at_ vm opt1)) &&
     negb (count vm opt2 =? 0) && negb (defaulted (at_ vm opt2))
  then Some ("conflicting options --" +:+ opt1 +:+ " and --" +:+ opt2)
  else None.

(** The two output streams. *)
Record streams := {
  cout : string;
  cerr : string
}.

Definition to_cout (s : string) (o : streams) : streams :=
  {| cout := cout o +:+ s; cerr := cerr o |}.

Definition to_cerr (s : string) (o : streams) : streams :=
  {| cout := cout o; cerr := cerr o +:+ s |}.

Definition no_output : streams := {| cout := ""; cerr := "" |}.

(** [std::endl] and the carriage return ['\r']. *)
Definition endl : string := String (Ascii.ascii_of_nat 10) "".
Definition CR : string := String (Ascii.ascii_of_nat 13) "".

(** How [main] ends: it returns a code, or an exception nobody catches
    leaves it. *)
Inductive outcome :=
| Returns (code : nat)
| Terminates.

(** What [reduce(g)] does: it returns a sequence, throws [NoReduction], or
    throws something else. *)
Inductive reduce_result :=
| Reduced (output : list SignedCharacter)
| Throws_NoReduction
| Throws_other.

(** The values [notify(vm)] stores into the variables bound to the options. *)
Record settings := {
  logging_enabled : bool;
  exponential_enabled : bool;
  interactive_enabled : bool;
  files : list string
}.

Definition notify (vm : variables_map) : settings :=
  {| logging_enabled := as_bool (at_ vm "verbose");
     exponential_enabled := as_bool (at_ vm "exponential");
     interactive_enabled := as_bool (at_ vm "interactive");
     files := as_files (at_ vm "files") |}.

(** The loop that fills the string stream [reduction]. *)
Fixpoint print_reduction (output : list SignedCharacter) : string :=
  match output with
  | [] => ""
  | sc :: rest => print_SignedCharacter sc +:+ " " +:+ print_reduction rest
  end.

Section Driver.

(** The collaborators that are not part of the sources: the command-line
    parser (the message of the exception on the left when it throws), the reader of an input
    file (the same), the reduction with what it writes to the standard
    output, the external verifier, the message of [NoReduction] and the text
    of the options menu. *)
Variable store : list string -> string + variables_map.
Variable read_graph : string -> string + RBGraph.
Variable reduce : settings -> RBGraph -> string * reduce_result.
Variable check_reduction : string -> string -> bool.
Variable NoReduction_what : string.
Variable general_options : string.

(** The handler of [NoReduction] in the loop over the files. *)
Definition report_NoReduction (file : string) (o : streams) : streams :=
  to_cout (CR +:+ "No (" +:+ file +:+ ") " +:+ NoReduction_what +:+ endl) o.

(** The body of the loop over the files; the flag says whether the loop
    goes on. *)
Definition process_file (cfg : settings) (file : string) (o : streams) : streams * bool :=
  let o1 := to_cout ("File (" +:+ file +:+ ")") o in
  match read_graph file with
  | inl what => (to_cerr (CR +:+ "No (" +:+ file +:+ ") " +:+ what +:+ endl) o1, true)
  | inr g =>
      let o2 := if logging_enabled cfg then to_cout endl o1 else o1 in
      let '(trace, r) := reduce cfg g in
      let o3 := to_cout trace o2 in
      match r with
      | Reduced output =>
          let reduction := print_reduction output in
          if negb (check_reduction file reduction)
          then (report_NoReduction file o3, true)
          else (to_cout (CR +:+ "Ok (" +:+ file +:+ ") < " +:+ reduction +:+ ">" +:+ endl) o3,
                true)
      | Throws_NoReduction => (report_NoReduction file o3, true)
      | Throws_other => (o3, false)
      end
  end.

(** The loop over the files. *)
Fixpoint process_files (cfg : settings) (fs : list string) (o : streams)
    : streams * outcome :=
  match fs with
  | [] => (o, Returns 0)
  | file :: rest =>
      let '(o1, goes_on) := process_file cfg file o in
      if goes_on then process_files cfg rest o1 else (o1, Terminates)
  end.

(** The handler of the exceptions thrown while the options are parsed. *)
Definition report_option_error (argv0 what : string) : streams * outcome :=
  (to_cerr ("Error: " +:+ what +:+ "." +:+ endl +:+
            "Try '" +:+ argv0 +:+ " --help' for more information." +:+ endl) no_output,
   Returns 1).

(** [main]; [argv0] is [argv[0]] and [args] the rest of the command line. *)
Definition main (argv0 : string) (args : list string) : streams * outcome :=
  match store args with
  | inl what => report_option_error argv0 what
  | inr vm =>
      match conflicting_options vm "exponential" "interactive" with
      | Some what => report_option_error argv0 what
      | None =>
          let cfg := notify vm in
          if negb (count vm "help" =? 0)
          then (to_cerr (general_options +:+ endl) no_output, Returns 1)
          else if count vm "files" =? 0
          then (to_cerr ("Error: No input file specified." +:+ endl +:+
                         "Try '" +:+ argv0 +:+ " --help' for more information." +:+ endl)
                        no_output,
                Returns 1)
          else process_files cfg (files cfg) no_output
      end
  end.

(** *** Predicates used to state the properties of the driver *)

(** What the loop body has written when the reduction of [file] is over:
    the header, a line end in verbose mode, and what [reduce] wrote. *)
Definition after_reduce (cfg : settings) (file trace : string) (o : streams) : streams :=
  let o1 := to_cout ("File (" +:+ file +:+ ")") o in
  to_cout trace (if logging_enabled cfg then to_cout endl o1 else o1).

(** A file fails when it cannot be read, when its reduction throws
    [NoReduction], or when the verifier rejects the sequence. *)
Definition fails (cfg : settings) (file : string) : Prop :=
  (exists what, read_graph file = inl what) \/
  (exists g trace, read_graph file = inr g /\ reduce cfg g = (trace, Throws_NoReduction)) \/
  (exists g trace output,
     read_graph file = inr g /\ reduce cfg g = (trace, Reduced output) /\
     check_reduction file (print_reduction output) = false).

(** No exception other than [NoReduction] leaves the reduction of [file]. *)
Definition contained (cfg : settings) (file : string) : Prop :=
  forall g, read_graph file = inr g -> snd (reduce cfg g) <> Throws_other.

End Driver.

End Ppp.

(** *** The remaining functions of [hdgraph.hpp] and [hdgraph.cpp] *)

Module Queries.
Import RBG Hasse Builder Props.

(** [orig_g(hasse)]; [None] is the null pointer. *)
Definition orig_g (hasse : HDGraph) : option RBGraph := g (hd_property hasse).

(** [orig_gm(hasse)] *)
Definition orig_gm (hasse : HDGraph) : option RBGraph := gm (hd_property hasse).

(** The loop of [find_source]; a vertex iterator is a position in the
    vertex list, and [n] is the distance from [v] to [v_end]. When the loop
    runs out, [v] is [v_end]. *)
Fixpoint find_source_loop (n : nat) (v : HDVertex) (hasse : HDGraph) : HDVertex :=
  match n with
  | 0 => v
  | S n' => if in_degree v hasse =? 0 then v else find_source_loop n' (S v) hasse
  end.

(** [find_source(v, v_end, hasse)] *)
Definition find_source (v v_end : HDVertex) (hasse : HDGraph) : HDVertex :=
  find_source_loop (v_end - v) v hasse.

(** There is a directed path from [u] to [v]. *)
Definition reachable (hasse : HDGraph) (u v : HDVertex) : Prop :=
  exists m, path hasse m u v.

(** The vertices come in ascending order of their number of character
    names. *)
Definition ascending_characters (hasse : HDGraph) : Prop :=
  StronglySorted (fun a b : list string => length a <= length b)
                 (characters <$> hd_vertices hasse).

(** All the species names that the vertices list, vertex after vertex. *)
Definition listed_species (hasse : HDGraph) : list string :=
  concat (species <$> hd_vertices hasse).

End Queries.

(** *** Fixtures *)

Module Fixtures.
Import RBG Hasse Builder Props.

(** A vertex with black edges to [outs]. *)
Definition vertex (n : string) (t : VertexType) (outs : list RBVertex) : stored_vertex :=
  {| m_property := {| name := n; type := t |};
     m_out_edges := (fun v => (v, BLACK)) <$> outs |}.

Definition graph (vs : list stored_vertex) (ns nc : nat) : RBGraph :=
  {| m_vertices := vs;
     m_graph_property := {| num_species_field := ns; num_characters_field := nc |} |}.

(** Two species, both adjacent to c1 and c2. *)
Definition collapse_graph : RBGraph :=
  graph [vertex "s1" SPECIES [2; 3]; vertex "s2" SPECIES [2; 3];
         vertex "c1" CHARACTER [0; 1]; vertex "c2" CHARACTER [0; 1]] 2 2.

(** Three species with characters c1; c1, c2; c1, c2, c3. *)
Definition chain_graph : RBGraph :=
  graph [vertex "s1" SPECIES [3]; vertex "s2" SPECIES [3; 4];
         vertex "s3" SPECIES [3; 4; 5];
         vertex "c1" CHARACTER [0; 1; 2]; vertex "c2" CHARACTER [1; 2];
         vertex "c3" CHARACTER [2]] 3 3.

(** The graph of a matrix with two rows and ten columns: species s1 with c1
    and species s2 with c1, c2 and c10; the characters are created in the
    order c1, ..., c10. *)
Definition unsorted_graph : RBGraph :=
  graph [vertex "s1" SPECIES [2]; vertex "s2" SPECIES [2; 3; 11];
         vertex "c1" CHARACTER [0; 1]; vertex "c2" CHARACTER [1];
         vertex "c3" CHARACTER []; vertex "c4" CHARACTER [];
         vertex "c5" CHARACTER []; vertex "c6" CHARACTER [];
         vertex "c7" CHARACTER []; vertex "c8" CHARACTER [];
         vertex "c9" CHARACTER []; vertex "c10" CHARACTER [1]] 2 10.

(** A diagram with two vertices and the edge between them. *)
Definition two_vertex_diagram : HDGraph :=
  {| hd_vertices := [{| species := ["s1"]; characters := ["c1"] |};
                     {| species := ["s2"]; characters := ["c1"; "c2"] |}];
     hd_edges := [((0, 1), {| signedcharacters := [{| character := "c9"; state := lose |}] |})];
     hd_property := {| g := None; gm := None; num_v := 0 |} |}.

(** Collaborators for the driver: a parser that recognises [-x], [-i] and
    file names, a reader that knows the file [good.txt] only, a reduction
    that gains c1 and loses c2, and a verifier that accepts what it is
    given unless the file is [rejected.txt]. *)
Definition explicit (v : Ppp.option_value) : Ppp.variable_value :=
  {| Ppp.value := v; Ppp.defaulted := false |}.

Definition implicit (v : Ppp.option_value) : Ppp.variable_value :=
  {| Ppp.value := v; Ppp.defaulted := true |}.

Definition parse_one (vm : gmap string Ppp.variable_value) (arg : string)
    : gmap string Ppp.variable_value :=
  if bool_decide (arg = "-x") then <["exponential" := explicit (Ppp.switch_value true)]> vm
  else if bool_decide (arg = "-i") then <["interactive" := explicit (Ppp.switch_value true)]> vm
  else <["files" := explicit (Ppp.files_value (Ppp.as_files (Ppp.at_ vm "files") ++ [arg]))]> vm.

Definition store (args : list string) : string + gmap string Ppp.variable_value :=
  inr (fold_left parse_one args
         (<["verbose" := implicit (Ppp.switch_value false)]>
          (<["exponential" := implicit (Ppp.switch_value false)]>
           (<["interactive" := implicit (Ppp.switch_value false)]> ∅)))).

Definition read_graph (file : string) : string + RBGraph :=
  if bool_decide (file = "missing.txt") then inl "Failed to read graph from file"
  else inr collapse_graph.

Definition reduce (cfg : Ppp.settings) (g : RBGraph) : string * Ppp.reduce_result :=
  ("", Ppp.Reduced [{| character := "c1"; state := gain |};
                    {| character := "c2"; state := lose |}]).

Definition check_reduction (file reduction : string) : bool :=
  negb (bool_decide (file = "rejected.txt")).

Definition plain : Ppp.settings :=
  {| Ppp.logging_enabled := false; Ppp.exponential_enabled := false;
     Ppp.interactive_enabled := false; Ppp.files := [] |}.

(** Two species with the same set of adjacent character names, c1 alone;
    s1 has two adjacent characters of that name. *)
Definition repeated_name_graph : RBGraph :=
  graph [vertex "s1" SPECIES [2; 3]; vertex "s2" SPECIES [2];
         vertex "c1" CHARACTER [0; 1]; vertex "c1" CHARACTER [0]] 2 2.

(** A reduction that throws [NoReduction]. *)
Definition reduce_no_reduction (cfg : Ppp.settings) (g : RBGraph)
    : string * Ppp.reduce_result :=
  ("", Ppp.Throws_NoReduction).

(** A reduction that throws something other than [NoReduction]. *)
Definition reduce_other (cfg : Ppp.settings) (g : RBGraph) : string * Ppp.reduce_result :=
  ("", Ppp.Throws_other).

End Fixtures.

(** ** Part II. Theorems *)

Import RBG Hasse Builder Props.

(** *** [is_included] *)

Lemma found_true (x : string) (b : list string) : found x b = true <-> x ∈ b.
Proof. unfold found. apply bool_decide_eq_true. Qed.

Lemma is_included_true (a b : list string) :
  is_included a b = true <-> forall x, x ∈ a -> x ∈ b.
Proof.
  induction a as [|i a IH]; simpl.
  - split; [intros _ x Hx; inversion Hx | reflexivity].
  - destruct (found i b) eqn:Hf; simpl.
    + rewrite IH. apply found_true in Hf. split.
      * intros H x Hx. apply elem_of_cons in Hx as [->|Hx]; auto.
      * intros H x Hx. apply H. now apply list_elem_of_further.
    + split; [discriminate|]. intros H.
      assert (Hi : i ∈ b) by (apply H; apply list_elem_of_here).
      apply found_true in Hi. congruence.
Qed.

Lemma is_included_refl (a : list string) : is_included a a = true.
Proof. apply is_included_true. auto. Qed.

Lemma is_included_trans (a b c : list string) :
  is_included a b = true -> is_included b c = true -> is_included a c = true.
Proof. rewrite !is_included_true. auto. Qed.

(** C9: [is_included a b] holds exactly when every element of [a] occurs in
    [b]; the empty list is included in every list, and the relation is
    reflexive and transitive. *)
Theorem is_included_preorder (a b c : list string) :
  (is_included a b = true <-> forall x, x ∈ a -> x ∈ b) /\
  is_included [] b = true /\
  is_included a a = true /\
  (is_included a b = true -> is_included b c = true -> is_included a c = true).
Proof.
  split; [apply is_included_true|].
  split; [reflexivity|].
  split; [apply is_included_refl|apply is_included_trans].
Qed.

Lemma is_included_preorder_witness :
  is_included ["c1"] ["c2"; "c1"] = true /\
  is_included ["c2"; "c1"] ["c1"; "c2"; "c3"] = true /\
  is_included ["c1"] ["c1"; "c2"; "c3"] = true.
Proof.
  split; [reflexivity|]. split; [reflexivity|].
  apply (is_included_preorder ["c1"] ["c2"; "c1"] ["c1"; "c2"; "c3"]); reflexivity.
Defined.

(** *** The overloads [add_vertex] and [add_edge] *)

Lemma update_edge_ends (f : list SignedCharacter -> list SignedCharacter) (e : HDEdge)
    (hasse : HDGraph) :
  fst <$> hd_edges (update_edge f e hasse) = fst <$> hd_edges hasse.
Proof.
  unfold update_edge; simpl. rewrite <- list_fmap_compose.
  apply list_fmap_ext. intros i x _. simpl. now case_bool_decide.
Qed.

Lemma update_edge_elem (f : list SignedCharacter -> list SignedCharacter) (e e' : HDEdge)
    (p : HDEdgeProperties) (hasse : HDGraph) :
  (e', p) ∈ hd_edges (update_edge f e hasse) <->
  (e' = e /\ exists q, (e, q) ∈ hd_edges hasse /\
                       p = {| signedcharacters := f (signedcharacters q) |}) \/
  (e' ≠ e /\ (e', p) ∈ hd_edges hasse).
Proof.
  unfold update_edge; simpl. rewrite list_elem_of_fmap. split.
  - intros [[e0 q] [Heq Hin]]. simpl in Heq. case_bool_decide as He; simplify_eq.
    + left. split; [reflexivity|]. now exists q.
    + right. now split.
  - intros [[-> [q [Hin ->]]] | [Hne Hin]].
    + exists (e, q). simpl. rewrite bool_decide_eq_true_2 by reflexivity. now split.
    + exists (e', p). simpl. rewrite bool_decide_eq_false_2 by assumption. now split.
Qed.

Lemma edge_count_ends (h1 h2 : HDGraph) (u v : HDVertex) :
  fst <$> hd_edges h1 = fst <$> hd_edges h2 -> edge_count h1 u v = edge_count h2 u v.
Proof. unfold edge_count. now intros ->. Qed.

Lemma edge_count_absent (hasse : HDGraph) (u v : HDVertex) :
  ~ has_edge hasse u v -> edge_count hasse u v = 0.
Proof.
  unfold has_edge, edge_count. induction (fst <$> hd_edges hasse) as [|y l IH]; intros Hn.
  - reflexivity.
  - apply not_elem_of_cons in Hn as [Hne Hn].
    rewrite filter_cons_False by congruence. auto.
Qed.

Lemma edge_count_present (hasse : HDGraph) (u v : HDVertex) :
  has_edge hasse u v -> 1 <= edge_count hasse u v.
Proof.
  unfold has_edge, edge_count. induction (fst <$> hd_edges hasse) as [|y l IH]; intros Hin.
  - inversion Hin.
  - destruct (decide (y = (u, v))) as [->|Hne].
    + rewrite filter_cons_True by reflexivity. simpl. lia.
    + rewrite filter_cons_False by assumption.
      apply elem_of_cons in Hin as [Heq|Hin]; [now destruct Hne|auto].
Qed.

Lemma edge_count_snoc (h1 h2 : HDGraph) (u v : HDVertex) :
  fst <$> hd_edges h1 = (fst <$> hd_edges h2) ++ [(u, v)] ->
  edge_count h1 u v = S (edge_count h2 u v).
Proof.
  unfold edge_count. intros ->. rewrite filter_app, length_app.
  rewrite filter_cons_True by reflexivity. simpl. lia.
Qed.

(** What the overload of [add_edge] that takes the label does to the edges. *)
Lemma add_edge_spec (u v : HDVertex) (scs : list SignedCharacter)
    (hasse hasse' : HDGraph) (e : HDEdge) (inserted : bool) :
  add_edge u v scs hasse = (e, inserted, hasse') ->
  e = (u, v) /\
  (has_edge hasse u v ->
     inserted = false /\ fst <$> hd_edges hasse' = fst <$> hd_edges hasse) /\
  (~ has_edge hasse u v ->
     inserted = true /\ fst <$> hd_edges hasse' = (fst <$> hd_edges hasse) ++ [(u, v)]) /\
  edge_count hasse' u v = Nat.max 1 (edge_count hasse u v) /\
  (NoDup (fst <$> hd_edges hasse) -> NoDup (fst <$> hd_edges hasse')) /\
  has_edge hasse' u v /\
  (forall p, ((u, v), p) ∈ hd_edges hasse' -> signedcharacters p = scs) /\
  (forall e' p, e' ≠ (u, v) -> (e', p) ∈ hd_edges hasse' <-> (e', p) ∈ hd_edges hasse) /\
  hd_vertices hasse' = hd_vertices hasse.
Proof.
  unfold add_edge, boost_add_edge.
  case_bool_decide as Hin; intros Heq; simplify_eq.
  - assert (Hends := update_edge_ends (fun _ => scs) (u, v) hasse).
    split; [reflexivity|]. split; [intros _; split; [reflexivity|exact Hends]|].
    split; [intros Hn; now destruct Hn|].
    split.
    { rewrite (edge_count_ends _ hasse) by assumption.
      pose proof (edge_count_present hasse u v Hin). lia. }
    split; [now rewrite Hends|]. split; [unfold has_edge; now rewrite Hends|].
    split; [|split; [|reflexivity]].
    + intros p Hp.
      apply update_edge_elem in Hp as [[_ [q [_ ->]]]|[Hne _]]; [reflexivity|congruence].
    + intros e' p Hne. rewrite update_edge_elem. split; [|tauto].
      intros [[-> _]|[_ H]]; [congruence|assumption].
  - set (h1 := {| hd_vertices := hd_vertices hasse;
                   hd_edges := hd_edges hasse ++ [((u, v), {| signedcharacters := [] |})];
                   hd_property := hd_property hasse |}).
    assert (Hends : fst <$> hd_edges (update_edge (fun _ => scs) (u, v) h1)
                    = (fst <$> hd_edges hasse) ++ [(u, v)]).
    { rewrite update_edge_ends. subst h1. simpl. now rewrite fmap_app. }
    split; [reflexivity|]. split; [intros Hn; now destruct Hin|].
    split; [intros _; split; [reflexivity|exact Hends]|].
    split.
    { rewrite (edge_count_snoc _ hasse) by assumption.
      rewrite (edge_count_absent hasse u v Hin). reflexivity. }
    split.
    { rewrite Hends. intros Hnd. apply NoDup_app. split; [assumption|].
      split; [|apply NoDup_singleton].
      intros x Hx Hx'. apply list_elem_of_singleton in Hx'. congruence. }
    split; [unfold has_edge; rewrite Hends; apply elem_of_app; right; apply list_elem_of_here|].
    split; [|split; [|reflexivity]].
    + intros p Hp.
      apply update_edge_elem in Hp as [[_ [q [_ ->]]]|[Hne _]]; [reflexivity|congruence].
    + intros e' p Hne. rewrite update_edge_elem. subst h1. simpl.
      rewrite elem_of_app, list_elem_of_singleton. split.
      * intros [[-> _]|[_ [H|H]]]; [congruence|assumption|congruence].
      * intros H. right. split; [assumption|now left].
Qed.

Lemma edge_label_Some (hasse : HDGraph) (u v : HDVertex) (scs : list SignedCharacter) :
  has_edge hasse u v ->
  (forall p, ((u, v), p) ∈ hd_edges hasse -> signedcharacters p = scs) ->
  edge_label hasse (u, v) = Some scs.
Proof.
  unfold has_edge, edge_label. induction (hd_edges hasse) as [|[e p] l IH]; intros Hin Hall.
  - inversion Hin.
  - cbn [find fst]. case_bool_decide as He.
    + subst e. cbn. f_equal. apply Hall, list_elem_of_here.
    + apply IH.
      * rewrite fmap_cons in Hin. apply elem_of_cons in Hin as [Heq|Hin]; [|assumption].
        simpl in Heq. congruence.
      * intros q Hq. apply Hall. now apply list_elem_of_further.
Qed.

(** C8: the overload of [add_edge] that takes the label never adds a second
    edge between the same two vertices: when the edge is there it is
    returned with the flag false and the edges keep their ends; in every
    case the edge from [u] to [v] ends with the label given, whatever it
    held before, and the other edges keep theirs. *)
Theorem add_edge_replaces_label (u v : HDVertex) (scs : list SignedCharacter)
    (hasse hasse' : HDGraph) (e : HDEdge) (inserted : bool) :
  add_edge u v scs hasse = (e, inserted, hasse') ->
  e = (u, v) /\
  (has_edge hasse u v ->
     inserted = false /\ fst <$> hd_edges hasse' = fst <$> hd_edges hasse) /\
  (~ has_edge hasse u v ->
     inserted = true /\ fst <$> hd_edges hasse' = (fst <$> hd_edges hasse) ++ [(u, v)]) /\
  edge_count hasse' u v = Nat.max 1 (edge_count hasse u v) /\
  (NoDup (fst <$> hd_edges hasse) -> NoDup (fst <$> hd_edges hasse')) /\
  has_edge hasse' u v /\
  (forall p, ((u, v), p) ∈ hd_edges hasse' -> signedcharacters p = scs) /\
  (forall e' p, e' ≠ (u, v) -> (e', p) ∈ hd_edges hasse' <-> (e', p) ∈ hd_edges hasse) /\
  hd_vertices hasse' = hd_vertices hasse /\
  edge_label hasse' (u, v) = Some scs.
Proof.
  intros Heq. pose proof (add_edge_spec u v scs hasse hasse' e inserted Heq) as H.
  destruct H as (He & Hin & Hout & Hcount & Hnd & Hhas & Hlab & Hframe & Hv).
  repeat (split; [assumption|]). now apply edge_label_Some.
Qed.

Lemma add_edge_replaces_label_witness :
  add_edge 0 1 [] Fixtures.two_vertex_diagram =
    ((0, 1), false,
     {| hd_vertices := hd_vertices Fixtures.two_vertex_diagram;
        hd_edges := [((0, 1), {| signedcharacters := [] |})];
        hd_property := hd_property Fixtures.two_vertex_diagram |}) /\
  edge_count {| hd_vertices := hd_vertices Fixtures.two_vertex_diagram;
                hd_edges := [((0, 1), {| signedcharacters := [] |})];
                hd_property := hd_property Fixtures.two_vertex_diagram |} 0 1 = 1.
Proof.
  split; [reflexivity|].
  pose proof (add_edge_replaces_label 0 1 [] Fixtures.two_vertex_diagram _ _ _ eq_refl) as H.
  destruct H as (_ & _ & _ & H & _). exact H.
Defined.

(** C10: [num_vertices] returns the field [num_v] of the graph bundle;
    [add_vertex] adds a vertex and leaves the field as it is, so no sequence
    of [add_vertex] calls changes what [num_vertices] returns, and the value
    differs from the number of vertices after the first call on a diagram on
    which the two agree. *)
Theorem num_vertices_ignores_add_vertex :
  (forall hasse, num_vertices hasse = num_v (hd_property hasse)) /\
  (forall sp chars hasse,
     num_vertices (snd (add_vertex sp chars hasse)) = num_vertices hasse /\
     length (hd_vertices (snd (add_vertex sp chars hasse))) = S (length (hd_vertices hasse))) /\
  (forall (calls : list (list string * list string)) hasse,
     num_vertices (fold_left (fun h c => snd (add_vertex (fst c) (snd c) h)) calls hasse)
       = num_vertices hasse /\
     length (hd_vertices (fold_left (fun h c => snd (add_vertex (fst c) (snd c) h)) calls hasse))
       = length calls + length (hd_vertices hasse)) /\
  (exists hasse, num_vertices hasse ≠ length (hd_vertices hasse)).
Proof.
  assert (Hone : forall sp chars hasse,
     num_vertices (snd (add_vertex sp chars hasse)) = num_vertices hasse /\
     length (hd_vertices (snd (add_vertex sp chars hasse))) = S (length (hd_vertices hasse))).
  { intros sp chars hasse. unfold add_vertex, boost_add_vertex, update_vertex, num_vertices; simpl.
    split; [reflexivity|]. rewrite !length_alter, length_app. simpl. lia. }
  split; [reflexivity|]. split; [exact Hone|]. split.
  - intros calls. induction calls as [|c calls IH]; intros hasse; cbn [fold_left length]; [auto|].
    destruct (IH (snd (add_vertex (fst c) (snd c) hasse))) as [IH1 IH2].
    destruct (Hone (fst c) (snd c) hasse) as [H1 H2].
    rewrite IH1, IH2, H1, H2. split; [reflexivity|lia].
  - exists (snd (add_vertex ["s1"] ["c1"] (empty_diagram 0))). vm_compute. discriminate.
Qed.

(** *** The driver *)

Lemma append_nil_r (s : string) : s +:+ "" = s.
Proof.
  induction s as [|c s IH]; [reflexivity|].
  change (String c (s +:+ "") = String c s). now rewrite IH.
Qed.

Lemma append_assoc (a b c : string) : (a +:+ b) +:+ c = a +:+ (b +:+ c).
Proof.
  induction a as [|x a IH]; [reflexivity|].
  change (String x ((a +:+ b) +:+ c) = String x (a +:+ (b +:+ c))). now rewrite IH.
Qed.

Section DriverProperties.
Import Ppp.

Variable store : list string -> string + variables_map.
Variable read_graph : string -> string + RBGraph.
Variable reduce : settings -> RBGraph -> string * reduce_result.
Variable check_reduction : string -> string -> bool.
Variable NoReduction_what : string.
Variable general_options : string.

Local Abbreviation process_file :=
  (process_file read_graph reduce check_reduction NoReduction_what).
Local Abbreviation process_files :=
  (process_files read_graph reduce check_reduction NoReduction_what).
Local Abbreviation main :=
  (main store read_graph reduce check_reduction NoReduction_what general_options).
Local Abbreviation fails := (fails read_graph reduce check_reduction).
Local Abbreviation contained := (contained read_graph reduce).

(** A signed character is its name followed by its sign. *)
Lemma print_SignedCharacter_sign (sc : SignedCharacter) :
  print_SignedCharacter sc =
  character sc +:+ match state sc with gain => "+" | lose => "-" end.
Proof. unfold print_SignedCharacter, print_State. now destruct (state sc). Qed.

(** C4: when the file is read, reduced and verified, the loop body writes
    the carriage return and then the line Ok, the file name in parentheses
    and the signed characters between angle brackets, each followed by one
    space and each its name and then + for gain and - for lose; when
    the file cannot be read or there is no reduction it writes the line No,
    the file name in parentheses and the reason. *)
Theorem ok_line_format (cfg : settings) (file : string) (o : streams) :
  (forall g trace output,
     read_graph file = inr g ->
     reduce cfg g = (trace, Reduced output) ->
     check_reduction file (print_reduction output) = true ->
     process_file cfg file o =
       (to_cout (CR +:+ "Ok (" +:+ file +:+ ") < " +:+ print_reduction output +:+ ">" +:+ endl)
                (after_reduce cfg file trace o), true)) /\
  (forall sc rest,
     print_reduction [] = "" /\
     print_reduction (sc :: rest) =
       (character sc +:+ match state sc with gain => "+" | lose => "-" end)
       +:+ " " +:+ print_reduction rest) /\
  (forall what,
     read_graph file = inl what ->
     process_file cfg file o =
       (to_cerr (CR +:+ "No (" +:+ file +:+ ") " +:+ what +:+ endl)
                (to_cout ("File (" +:+ file +:+ ")") o), true)) /\
  (forall g trace,
     read_graph file = inr g ->
     reduce cfg g = (trace, Throws_NoReduction) ->
     process_file cfg file o =
       (to_cout (CR +:+ "No (" +:+ file +:+ ") " +:+ NoReduction_what +:+ endl)
                (after_reduce cfg file trace o), true)).
Proof.
  unfold Ppp.process_file, after_reduce, report_NoReduction.
  split; [|split; [|split]].
  - intros g trace output -> -> ->. reflexivity.
  - intros sc rest. split; [reflexivity|]. cbn [print_reduction].
    now rewrite print_SignedCharacter_sign.
  - intros what ->. reflexivity.
  - intros g trace -> ->. reflexivity.
Qed.

(** C5: when the reduction returns a sequence and the verifier answers
    false for the file and the printed sequence, the loop body writes the
    line No for the file, and not the line Ok. *)
Theorem verifier_false_reports_no (cfg : settings) (file : string) (o : streams)
    (g : RBGraph) (trace : string) (output : list SignedCharacter) :
  read_graph file = inr g ->
  reduce cfg g = (trace, Reduced output) ->
  check_reduction file (print_reduction output) = false ->
  process_file cfg file o =
    (to_cout (CR +:+ "No (" +:+ file +:+ ") " +:+ NoReduction_what +:+ endl)
             (after_reduce cfg file trace o), true) /\
  process_file cfg file o <>
    (to_cout (CR +:+ "Ok (" +:+ file +:+ ") < " +:+ print_reduction output +:+ ">" +:+ endl)
             (after_reduce cfg file trace o), true).
Proof.
  intros Hr Hred Hc.
  assert (H : process_file cfg file o =
    (to_cout (CR +:+ "No (" +:+ file +:+ ") " +:+ NoReduction_what +:+ endl)
             (after_reduce cfg file trace o), true)).
  { unfold Ppp.process_file, after_reduce, report_NoReduction. now rewrite Hr, Hred, Hc. }
  split; [exact H|]. rewrite H. intros Heq.
  unfold to_cout in Heq. injection Heq as Heq.
  apply (inj (String.app _)) in Heq. apply (inj (String.app CR)) in Heq.
  cbv [String.append] in Heq. discriminate.
Qed.

Lemma process_file_contained (cfg : settings) (file : string) (o : streams) :
  contained cfg file -> snd (process_file cfg file o) = true.
Proof.
  unfold Ppp.contained, Ppp.process_file. intros H.
  destruct (read_graph file) as [what|g]; [reflexivity|].
  specialize (H g eq_refl). destruct (reduce cfg g) as [trace r]. simpl in H.
  destruct r; [|reflexivity|contradiction].
  now destruct (negb _).
Qed.

Lemma process_file_header (cfg : settings) (file : string) (o : streams) :
  exists written, cout (fst (process_file cfg file o)) =
                  cout o +:+ "File (" +:+ file +:+ ")" +:+ written.
Proof.
  pose proof append_assoc as Hassoc.
  unfold Ppp.process_file.
  destruct (read_graph file) as [what|g];
    [exists ""; reflexivity|].
  destruct (reduce cfg g) as [trace r].
  destruct r as [output| |]; [destruct (negb _)| |];
    destruct (logging_enabled cfg); unfold report_NoReduction; simpl;
    eexists; rewrite ?Hassoc; reflexivity.
Qed.

Lemma process_file_cerr (cfg : settings) (file : string) (o : streams) :
  exists written, cerr (fst (process_file cfg file o)) = cerr o +:+ written.
Proof.
  unfold Ppp.process_file.
  destruct (read_graph file) as [what|g]; [eexists; reflexivity|].
  destruct (reduce cfg g) as [trace r].
  destruct r as [output| |]; [destruct (negb _)| |];
    destruct (logging_enabled cfg); exists ""; simpl; now rewrite append_nil_r.
Qed.

(** The loop only appends to the two streams. *)
Lemma process_files_grows (cfg : settings) (fs : list string) :
  forall o, exists wo we,
    cout (fst (process_files cfg fs o)) = cout o +:+ wo /\
    cerr (fst (process_files cfg fs o)) = cerr o +:+ we.
Proof.
  pose proof append_assoc as Hassoc.
  induction fs as [|f fs IH]; intros o; cbn [Ppp.process_files].
  - exists "", "". simpl. now rewrite !append_nil_r.
  - destruct (process_file_header cfg f o) as [w Hw].
    destruct (process_file_cerr cfg f o) as [e He].
    destruct (process_file cfg f o) as [o2 b]. simpl in Hw, He. destruct b.
    + destruct (IH o2) as (wo & we & Hwo & Hwe). rewrite Hwo, Hwe, Hw, He.
      eexists; eexists; rewrite ?Hassoc; split; reflexivity.
    + simpl. rewrite Hw, He. eexists; eexists; rewrite ?Hassoc; split; reflexivity.
Qed.

(** C6: a file that cannot be read is reported by the line No, its name
    and the reason on the standard error; a file whose reduction throws
    [NoReduction], or whose sequence the verifier rejects, is reported by
    the line No, its name and the message of [NoReduction] on the standard
    output. In both cases the loop goes on with the files after it,
    started from what has been written, and the report is part of what
    the whole loop writes. When every file keeps its exceptions to
    [NoReduction], the loop takes up every file of the list (each gets its
    header) and [main] returns 0. *)
Theorem failure_does_not_abort (cfg : settings) (file : string) (rest : list string)
    (o : streams) :
  (forall what,
     read_graph file = inl what ->
     process_file cfg file o =
       (to_cerr (CR +:+ "No (" +:+ file +:+ ") " +:+ what +:+ endl)
                (to_cout ("File (" +:+ file +:+ ")") o), true) /\
     process_files cfg (file :: rest) o =
       process_files cfg rest
         (to_cerr (CR +:+ "No (" +:+ file +:+ ") " +:+ what +:+ endl)
                  (to_cout ("File (" +:+ file +:+ ")") o)) /\
     exists before after,
       cerr (fst (process_files cfg (file :: rest) o)) =
         before +:+ (CR +:+ "No (" +:+ file +:+ ") " +:+ what +:+ endl) +:+ after) /\
  (forall g trace,
     read_graph file = inr g ->
     reduce cfg g = (trace, Throws_NoReduction) \/
     (exists output, reduce cfg g = (trace, Reduced output) /\
                     check_reduction file (print_reduction output) = false) ->
     process_file cfg file o =
       (to_cout (CR +:+ "No (" +:+ file +:+ ") " +:+ NoReduction_what +:+ endl)
                (after_reduce cfg file trace o), true) /\
     process_files cfg (file :: rest) o =
       process_files cfg rest
         (to_cout (CR +:+ "No (" +:+ file +:+ ") " +:+ NoReduction_what +:+ endl)
                  (after_reduce cfg file trace o)) /\
     exists before after,
       cout (fst (process_files cfg (file :: rest) o)) =
         before +:+ (CR +:+ "No (" +:+ file +:+ ") " +:+ NoReduction_what +:+ endl)
         +:+ after) /\
  (Forall (contained cfg) rest ->
   forall o1, snd (process_files cfg rest o1) = Returns 0 /\
     forall f, f ∈ rest ->
       exists before after,
         cout (fst (process_files cfg rest o1)) = before +:+ "File (" +:+ f +:+ ")" +:+ after).
Proof.
  split; [|split].
  - intros what Hr.
    assert (H : process_file cfg file o =
              (to_cerr (CR +:+ "No (" +:+ file +:+ ") " +:+ what +:+ endl)
                       (to_cout ("File (" +:+ file +:+ ")") o), true)).
    { unfold Ppp.process_file. now rewrite Hr. }
    split; [exact H|]. cbn [Ppp.process_files]. rewrite H. split; [reflexivity|].
    destruct (process_files_grows cfg rest
                (to_cerr (CR +:+ "No (" +:+ file +:+ ") " +:+ what +:+ endl)
                         (to_cout ("File (" +:+ file +:+ ")") o))) as (wo & we & _ & Hwe).
    exists (cerr o), we. rewrite Hwe. cbn [to_cerr to_cout cerr]. apply append_assoc.
  - intros g trace Hr Hred.
    assert (H : process_file cfg file o =
              (to_cout (CR +:+ "No (" +:+ file +:+ ") " +:+ NoReduction_what +:+ endl)
                       (after_reduce cfg file trace o), true)).
    { unfold Ppp.process_file, after_reduce, report_NoReduction. rewrite Hr.
      destruct Hred as [->|(output & -> & ->)]; reflexivity. }
    split; [exact H|]. cbn [Ppp.process_files]. rewrite H. split; [reflexivity|].
    destruct (process_files_grows cfg rest
                (to_cout (CR +:+ "No (" +:+ file +:+ ") " +:+ NoReduction_what +:+ endl)
                         (after_reduce cfg file trace o))) as (wo & we & Hwo & _).
    exists (cout (after_reduce cfg file trace o)), wo. rewrite Hwo.
    cbn [to_cout cout]. apply append_assoc.
  - pose proof append_assoc as Hassoc.
    intros Hall. induction Hall as [|f fs Hf Hall IH]; intros o1.
    + split; [reflexivity|]. intros f Hin. inversion Hin.
    + cbn [Ppp.process_files].
      pose proof (process_file_contained cfg f o1 Hf) as Hgo.
      destruct (process_file_header cfg f o1) as [w Hw].
      destruct (process_file cfg f o1) as [o2 b]. simpl in Hgo, Hw. subst b.
      destruct (IH o2) as [IH1 IH2]. split; [exact IH1|].
      intros f' Hin. apply elem_of_cons in Hin as [->|Hin]; [|now apply IH2].
      destruct (process_files_grows cfg fs o2) as (w' & _ & Hw' & _).
      exists (cout o1), (w +:+ w'). rewrite Hw', Hw, ?Hassoc. reflexivity.
Qed.

(** C7: when the parsed command line holds both [exponential] and
    [interactive] as given explicitly, [main] writes the error about the
    conflicting options to the standard error, nothing to the standard
    output, and returns 1; no file is read. *)
Theorem conflicting_options_exit (argv0 : string) (args : list string)
    (vm : variables_map) (vx vi : variable_value) :
  store args = inr vm ->
  vm !! "exponential" = Some vx -> defaulted vx = false ->
  vm !! "interactive" = Some vi -> defaulted vi = false ->
  conflicting_options vm "exponential" "interactive" =
    Some "conflicting options --exponential and --interactive" /\
  main argv0 args =
    ({| cout := "";
        cerr := "" +:+ "Error: conflicting options --exponential and --interactive." +:+ endl
                +:+ "Try '" +:+ argv0 +:+ " --help' for more information." +:+ endl |},
     Returns 1).
Proof.
  intros Hs Hx Hdx Hi Hdi.
  assert (Hc : conflicting_options vm "exponential" "interactive" =
               Some "conflicting options --exponential and --interactive").
  { unfold conflicting_options, count, at_.
    rewrite !(lookup_total_correct _ _ _ Hx), !(lookup_total_correct _ _ _ Hi).
    rewrite Hx, Hi, Hdx, Hdi. reflexivity. }
  split; [exact Hc|].
  unfold Ppp.main. rewrite Hs, Hc. reflexivity.
Qed.

(** When the command line is stored, holds no conflict, no [--help] and at
    least one file, [main] is the loop over the files, started with nothing
    written. *)
Lemma main_processes_files (argv0 : string) (args : list string) (vm : variables_map) :
  store args = inr vm ->
  conflicting_options vm "exponential" "interactive" = None ->
  vm !! "help" = None ->
  is_Some (vm !! "files") ->
  main argv0 args = process_files (notify vm) (files (notify vm)) no_output.
Proof.
  intros Hs Hc Hh [vf Hf]. unfold Ppp.main, count. now rewrite Hs, Hc, Hh, Hf.
Qed.

End DriverProperties.

Lemma ok_line_format_witness :
  Ppp.process_file Fixtures.read_graph Fixtures.reduce Fixtures.check_reduction
      "Could not reduce graph" Fixtures.plain "good.txt" Ppp.no_output =
    ({| Ppp.cout := "File (good.txt)" +:+ Ppp.CR +:+ "Ok (good.txt) < c1+ c2- >" +:+ Ppp.endl;
        Ppp.cerr := "" |}, true).
Proof.
  destruct (ok_line_format Fixtures.read_graph Fixtures.reduce Fixtures.check_reduction
              "Could not reduce graph" Fixtures.plain "good.txt" Ppp.no_output)
    as (Hok & _ & _ & _).
  rewrite (Hok _ _ _ eq_refl eq_refl eq_refl). reflexivity.
Defined.

Lemma verifier_false_reports_no_witness :
  Ppp.process_file Fixtures.read_graph Fixtures.reduce Fixtures.check_reduction
      "Could not reduce graph" Fixtures.plain "rejected.txt" Ppp.no_output =
    ({| Ppp.cout := "File (rejected.txt)" +:+ Ppp.CR +:+
                    "No (rejected.txt) Could not reduce graph" +:+ Ppp.endl;
        Ppp.cerr := "" |}, true).
Proof.
  destruct (verifier_false_reports_no Fixtures.read_graph Fixtures.reduce
              Fixtures.check_reduction "Could not reduce graph" Fixtures.plain
              "rejected.txt" Ppp.no_output _ _ _ eq_refl eq_refl eq_refl) as [H _].
  rewrite H. reflexivity.
Defined.

Lemma failure_does_not_abort_witness :
  Ppp.process_files Fixtures.read_graph Fixtures.reduce Fixtures.check_reduction
      "Could not reduce graph" Fixtures.plain ["missing.txt"; "rejected.txt"; "good.txt"]
      Ppp.no_output =
    ({| Ppp.cout := "File (missing.txt)File (rejected.txt)" +:+ Ppp.CR +:+
                    "No (rejected.txt) Could not reduce graph" +:+ Ppp.endl +:+
                    "File (good.txt)" +:+ Ppp.CR +:+ "Ok (good.txt) < c1+ c2- >" +:+ Ppp.endl;
        Ppp.cerr := Ppp.CR +:+ "No (missing.txt) Failed to read graph from file" +:+ Ppp.endl |},
     Ppp.Returns 0) /\
  Ppp.process_files Fixtures.read_graph Fixtures.reduce_no_reduction Fixtures.check_reduction
      "Could not reduce graph" Fixtures.plain ["first.txt"; "second.txt"] Ppp.no_output =
    ({| Ppp.cout := "File (first.txt)" +:+ Ppp.CR +:+
                    "No (first.txt) Could not reduce graph" +:+ Ppp.endl +:+
                    "File (second.txt)" +:+ Ppp.CR +:+
                    "No (second.txt) Could not reduce graph" +:+ Ppp.endl;
        Ppp.cerr := "" |},
     Ppp.Returns 0).
Proof.
  split.
  - destruct (failure_does_not_abort Fixtures.read_graph Fixtures.reduce
                Fixtures.check_reduction "Could not reduce graph" Fixtures.plain
                "missing.txt" ["rejected.txt"; "good.txt"] Ppp.no_output) as (Hread & _ & _).
    destruct (Hread _ eq_refl) as (_ & H1 & _). rewrite H1.
    destruct (failure_does_not_abort Fixtures.read_graph Fixtures.reduce
                Fixtures.check_reduction "Could not reduce graph" Fixtures.plain
                "rejected.txt" ["good.txt"]
                (Ppp.to_cerr (Ppp.CR +:+ "No (" +:+ "missing.txt" +:+ ") " +:+
                              "Failed to read graph from file" +:+ Ppp.endl)
                   (Ppp.to_cout ("File (" +:+ "missing.txt" +:+ ")") Ppp.no_output)))
      as (_ & Hno & _).
    destruct (Hno Fixtures.collapse_graph "" eq_refl
                (or_intror (ex_intro _ _ (conj eq_refl eq_refl)))) as (_ & H2 & _).
    rewrite H2. reflexivity.
  - destruct (failure_does_not_abort Fixtures.read_graph Fixtures.reduce_no_reduction
                Fixtures.check_reduction "Could not reduce graph" Fixtures.plain
                "first.txt" ["second.txt"] Ppp.no_output) as (_ & Hno & _).
    destruct (Hno Fixtures.collapse_graph "" eq_refl (or_introl eq_refl)) as (_ & H1 & _).
    rewrite H1. reflexivity.
Defined.

Lemma conflicting_options_exit_witness :
  Ppp.main Fixtures.store Fixtures.read_graph Fixtures.reduce Fixtures.check_reduction
      "Could not reduce graph" "Usage: ppp [OPTION...] FILE..." "ppp"
      ["-x"; "-i"; "good.txt"] =
    ({| Ppp.cout := "";
        Ppp.cerr := "Error: conflicting options --exponential and --interactive." +:+ Ppp.endl
                    +:+ "Try 'ppp --help' for more information." +:+ Ppp.endl |},
     Ppp.Returns 1).
Proof.
  destruct (conflicting_options_exit Fixtures.store Fixtures.read_graph Fixtures.reduce
              Fixtures.check_reduction "Could not reduce graph"
              "Usage: ppp [OPTION...] FILE..." "ppp" ["-x"; "-i"; "good.txt"]
              _ _ _ eq_refl eq_refl eq_refl eq_refl eq_refl) as [_ H].
  rewrite H. reflexivity.
Defined.

(** *** The builder: queueing and adding the new edges *)

Lemma queue_missing_spec (hdv : HDVertex) (lhdv lcv : list string)
    (new_edges : list (HDVertex * string)) :
  queue_missing hdv lhdv lcv new_edges = new_edges ++ (pair hdv <$> missing lhdv lcv).
Proof.
  revert new_edges. unfold missing.
  induction lcv as [|ci lcv IH]; intros new_edges; simpl.
  - now rewrite app_nil_r.
  - unfold found. case_bool_decide as Hci; simpl.
    + rewrite IH. now rewrite filter_cons_False by tauto.
    + rewrite IH. rewrite filter_cons_True by assumption.
      rewrite fmap_cons, <- app_assoc. reflexivity.
Qed.

Lemma missing_nil (a b : list string) : missing a b = [] <-> is_included b a = true.
Proof.
  unfold missing. rewrite is_included_true. split.
  - intros H x Hx. destruct (decide (x ∈ a)) as [|Hn]; [assumption|].
    exfalso. eapply filter_nil_not_elem_of; [exact H|exact Hn|exact Hx].
  - intros H. induction b as [|x b IH]; [reflexivity|].
    rewrite filter_cons_False.
    + apply IH. intros y Hy. apply H. now apply list_elem_of_further.
    + intros Hn. apply Hn, H, list_elem_of_here.
Qed.

Lemma strictly_included_missing (a b : list string) :
  strictly_included a b = true <-> is_included a b = true /\ missing a b <> [].
Proof.
  unfold strictly_included. rewrite andb_true_iff, negb_true_iff, missing_nil.
  destruct (is_included b a); intuition congruence.
Qed.

Lemma strictly_included_trans (a b c : list string) :
  strictly_included a b = true -> strictly_included b c = true ->
  strictly_included a c = true.
Proof.
  unfold strictly_included. rewrite !andb_true_iff, !negb_true_iff.
  intros [Hab Hba] [Hbc Hcb]. split; [eapply is_included_trans; eassumption|].
  destruct (is_included c a) eqn:Hca; [|reflexivity].
  rewrite (is_included_trans c a b Hca Hab) in Hcb. discriminate.
Qed.

Lemma strictly_included_irrefl (a : list string) : strictly_included a a = false.
Proof. unfold strictly_included. now rewrite is_included_refl. Qed.

Lemma update_edge_absent (f : list SignedCharacter -> list SignedCharacter) (e : HDEdge)
    (edges : list (HDEdge * HDEdgeProperties)) :
  e ∉ fst <$> edges ->
  (fun x : HDEdge * HDEdgeProperties =>
     if bool_decide (fst x = e)
     then (fst x, {| signedcharacters := f (signedcharacters (snd x)) |})
     else x) <$> edges = edges.
Proof.
  induction edges as [|x edges IH]; intros Hn; [reflexivity|].
  rewrite fmap_cons in Hn. apply not_elem_of_cons in Hn as [Hne Hn].
  rewrite fmap_cons, IH by assumption.
  rewrite bool_decide_eq_false_2 by congruence. reflexivity.
Qed.

Lemma update_edge_last (f : list SignedCharacter -> list SignedCharacter) (e : HDEdge)
    (edges : list (HDEdge * HDEdgeProperties)) (p : HDEdgeProperties) (hasse : HDGraph) :
  hd_edges hasse = edges ++ [(e, p)] ->
  e ∉ fst <$> edges ->
  hd_edges (update_edge f e hasse) =
    edges ++ [(e, {| signedcharacters := f (signedcharacters p) |})].
Proof.
  intros He Hn. unfold update_edge. cbn [hd_edges]. rewrite He, fmap_app.
  rewrite (update_edge_absent f e edges Hn). cbn [fmap list_fmap fst snd].
  rewrite bool_decide_eq_true_2 by reflexivity. reflexivity.
Qed.

Lemma add_new_edges_app (u : HDVertex) (l1 l2 : list (HDVertex * string)) (hasse : HDGraph) :
  add_new_edges u (l1 ++ l2) hasse = add_new_edges u l2 (add_new_edges u l1 hasse).
Proof.
  revert hasse. induction l1 as [|ei l1 IH]; intros hasse; [reflexivity|].
  simpl. destruct (boost_add_edge (fst ei) u hasse) as [[e b] h1]. apply IH.
Qed.

Lemma add_new_edges_frame (u : HDVertex) (l : list (HDVertex * string)) (hasse : HDGraph) :
  hd_vertices (add_new_edges u l hasse) = hd_vertices hasse /\
  hd_property (add_new_edges u l hasse) = hd_property hasse.
Proof.
  revert hasse. induction l as [|ei l IH]; intros hasse; [now split|].
  simpl. unfold boost_add_edge. case_bool_decide; rewrite (proj1 (IH _)), (proj2 (IH _)); now split.
Qed.

(** Pushing names on the label of the edge that is last in the list. *)
Lemma add_new_edges_extend (u k : HDVertex) (cs : list string) :
  forall (hasse : HDGraph) (edges : list (HDEdge * HDEdgeProperties))
         (l : list SignedCharacter),
    hd_edges hasse = edges ++ [((k, u), {| signedcharacters := l |})] ->
    (k, u) ∉ fst <$> edges ->
    hd_edges (add_new_edges u (pair k <$> cs) hasse) =
      edges ++ [((k, u), {| signedcharacters := l ++ gained cs |})].
Proof.
  induction cs as [|c cs IH]; intros hasse edges l He Hn.
  - simpl. now rewrite app_nil_r.
  - rewrite fmap_cons. cbn [add_new_edges fst snd]. unfold boost_add_edge.
    rewrite bool_decide_eq_true_2.
    2:{ rewrite He, fmap_app. apply elem_of_app. right. apply list_elem_of_here. }
    erewrite IH; [|apply update_edge_last; eassumption|assumption].
    cbn [signedcharacters]. unfold gained. rewrite fmap_cons, <- app_assoc. reflexivity.
Qed.

(** The pairs queued for one source add one edge, labelled by the names. *)
Lemma add_new_edges_block (u k : HDVertex) (cs : list string) (hasse : HDGraph) :
  cs <> [] ->
  (k, u) ∉ fst <$> hd_edges hasse ->
  hd_edges (add_new_edges u (pair k <$> cs) hasse) =
    hd_edges hasse ++ [((k, u), {| signedcharacters := gained cs |})].
Proof.
  destruct cs as [|c cs]; [congruence|]. intros _ Hn.
  rewrite fmap_cons. cbn [add_new_edges fst snd]. unfold boost_add_edge.
  rewrite bool_decide_eq_false_2 by assumption.
  erewrite add_new_edges_extend;
    [|apply update_edge_last; [reflexivity|assumption]|assumption].
  reflexivity.
Qed.

Lemma add_new_edges_blocks (u : HDVertex) (cs : HDVertex -> list string) (ks : list HDVertex) :
  forall hasse : HDGraph,
    NoDup ks ->
    (forall k, k ∈ ks -> (k, u) ∉ fst <$> hd_edges hasse) ->
    hd_edges (add_new_edges u (ks ≫= (fun k => pair k <$> cs k)) hasse) =
      hd_edges hasse ++ (ks ≫= (fun k => new_edge u (cs k) k)).
Proof.
  induction ks as [|k ks IH]; intros hasse Hnd Hfresh.
  - simpl. now rewrite app_nil_r.
  - apply NoDup_cons in Hnd as [Hk Hnd]. rewrite !bind_cons, add_new_edges_app.
    destruct (cs k) as [|c cs'] eqn:Hcs.
    + simpl. apply IH; [assumption|]. intros k' Hk'. apply Hfresh. now apply list_elem_of_further.
    + rewrite IH; [|assumption|].
      * rewrite add_new_edges_block; [|congruence|apply Hfresh, list_elem_of_here].
        rewrite <- app_assoc. reflexivity.
      * intros k' Hk'. rewrite add_new_edges_block; [|congruence|apply Hfresh, list_elem_of_here].
        rewrite fmap_app. intros Hin. apply elem_of_app in Hin as [Hin|Hin].
        -- revert Hin. apply Hfresh. now apply list_elem_of_further.
        -- apply list_elem_of_singleton in Hin. simpl in Hin. congruence.
Qed.

(** *** The builder: one species *)

Lemma alter_snoc {A} (f : A -> A) (l : list A) (x : A) :
  alter f (length l) (l ++ [x]) = l ++ [f x].
Proof.
  replace (length l) with (length l + 0) by lia. now rewrite alter_app_r.
Qed.

Lemma add_vertex1_spec (v_name : string) (lcv : list string) (hasse : HDGraph) :
  add_vertex1 v_name lcv hasse =
    (length (hd_vertices hasse),
     {| hd_vertices := hd_vertices hasse ++ [{| species := [v_name]; characters := lcv |}];
        hd_edges := hd_edges hasse;
        hd_property := hd_property hasse |}).
Proof.
  unfold add_vertex1, add_vertex, boost_add_vertex, update_vertex. cbn [hd_vertices hd_edges hd_property].
  rewrite alter_snoc. rewrite alter_snoc. reflexivity.
Qed.

Lemma first_match {A} (P : A -> Prop) `{forall x, Decision (P x)} (l : list A) :
  Forall (fun x => ~ P x) l \/
  exists pre k post, l = pre ++ k :: post /\ Forall (fun x => ~ P x) pre /\ P k.
Proof.
  induction l as [|x l IH]; [left; constructor|].
  destruct (decide (P x)) as [Hx|Hx].
  - right. exists [], x, l. repeat split; [constructor|assumption].
  - destruct IH as [IH|(pre & k & post & -> & Hpre & Hk)].
    + left. now constructor.
    + right. exists (x :: pre), k, post. repeat split; [now constructor|assumption].
Qed.

Lemma scan_vertices_found (v_name : string) (lcv : list string) (hasse : HDGraph)
    (pre : list HDVertex) (k : HDVertex) (post : list HDVertex) :
  forall new_edges,
    Forall (fun j => lcv <> characters (vertex_bundle hasse j)) pre ->
    lcv = characters (vertex_bundle hasse k) ->
    scan_vertices v_name lcv (pre ++ k :: post) new_edges hasse =
      update_vertex
        (fun p => {| species := species p ++ [v_name]; characters := characters p |})
        k hasse.
Proof.
  induction pre as [|j pre IH]; intros new_edges Hpre Hk.
  - cbn [app scan_vertices]. now rewrite bool_decide_eq_true_2.
  - apply Forall_cons in Hpre as [Hj Hpre].
    change ((j :: pre) ++ k :: post) with (j :: (pre ++ k :: post)).
    cbn [scan_vertices]. rewrite bool_decide_eq_false_2 by assumption.
    destruct (pre ++ k :: post) as [|x r] eqn:Hrest.
    + now destruct pre.
    + now apply IH.
Qed.

Lemma scan_vertices_fresh (v_name : string) (lcv : list string) (hasse : HDGraph)
    (hdvs : list HDVertex) :
  forall new_edges,
    hdvs <> [] ->
    Forall (fun j => lcv <> characters (vertex_bundle hasse j)) hdvs ->
    scan_vertices v_name lcv hdvs new_edges hasse =
      add_new_edges (length (hd_vertices hasse))
        (new_edges ++ (hdvs ≫= (fun k => pair k <$> queued hasse lcv k)))
        (snd (add_vertex1 v_name lcv hasse)).
Proof.
  induction hdvs as [|j rest IH]; intros new_edges Hne Hall; [congruence|].
  apply Forall_cons in Hall as [Hj Hall].
  cbn [scan_vertices]. rewrite bool_decide_eq_false_2 by assumption.
  assert (Hq : (if is_included (characters (vertex_bundle hasse j)) lcv
                then queue_missing j (characters (vertex_bundle hasse j)) lcv new_edges
                else new_edges) = new_edges ++ (pair j <$> queued hasse lcv j)).
  { unfold queued. destruct (is_included _ lcv).
    - apply queue_missing_spec.
    - now rewrite app_nil_r. }
  rewrite Hq, bind_cons. destruct rest as [|j' rest'].
  - rewrite add_vertex1_spec. cbn [snd]. now rewrite app_nil_r.
  - rewrite IH by (congruence || assumption). now rewrite <- app_assoc.
Qed.

(** The two ways in which the loop over the vertices of the diagram ends
    for a species that is not the first. *)
Lemma insert_species_cases (i : nat) (v_name : string) (lcv : list string) (hasse : HDGraph) :
  i <> 0 -> hd_vertices hasse <> [] ->
  (exists k, k < length (hd_vertices hasse) /\
             lcv = characters (vertex_bundle hasse k) /\
             insert_species i v_name lcv hasse =
               update_vertex
                 (fun p => {| species := species p ++ [v_name]; characters := characters p |})
                 k hasse) \/
  ((forall k, k < length (hd_vertices hasse) -> lcv <> characters (vertex_bundle hasse k)) /\
   insert_species i v_name lcv hasse =
     add_new_edges (length (hd_vertices hasse))
       (vertices hasse ≫= (fun k => pair k <$> queued hasse lcv k))
       (snd (add_vertex1 v_name lcv hasse))).
Proof.
  intros Hi Hne. unfold insert_species.
  destruct (Nat.eqb_spec i 0) as [|_]; [contradiction|].
  destruct (first_match (fun j => lcv = characters (vertex_bundle hasse j)) (vertices hasse))
    as [Hall|(pre & k & post & Hl & Hpre & Hk)].
  - right. split.
    + intros k Hk. rewrite Forall_forall in Hall. apply Hall. unfold vertices.
      apply elem_of_seq. lia.
    + rewrite scan_vertices_fresh; [reflexivity| |assumption].
      unfold vertices. destruct (hd_vertices hasse); [congruence|discriminate].
  - left. exists k. split; [|split; [assumption|]].
    + assert (Hin : k ∈ vertices hasse) by (rewrite Hl; apply elem_of_app; right; apply list_elem_of_here).
      unfold vertices in Hin. apply elem_of_seq in Hin. lia.
    + rewrite Hl. now apply scan_vertices_found.
Qed.

(** *** The builder: what holds before the closing loop *)

Lemma update_species_characters (k : HDVertex) (v_name : string) (hasse : HDGraph)
    (j : HDVertex) :
  characters (vertex_bundle
    (update_vertex (fun p => {| species := species p ++ [v_name]; characters := characters p |})
                   k hasse) j) = characters (vertex_bundle hasse j).
Proof.
  unfold vertex_bundle, update_vertex. cbn [hd_vertices].
  rewrite list_lookup_total_alter. case_decide as Hd; [|reflexivity].
  destruct Hd as [-> _]. reflexivity.
Qed.

Lemma closed_diagram_update_species (k : HDVertex) (v_name : string) (hasse : HDGraph) :
  closed_diagram hasse ->
  closed_diagram
    (update_vertex (fun p => {| species := species p ++ [v_name]; characters := characters p |})
                   k hasse).
Proof.
  intros [Hfwd Hnd Hsound Hcomplete Hchars]. constructor.
  - intros e p He. unfold update_vertex. cbn [hd_vertices]. rewrite length_alter. now apply (Hfwd e p).
  - exact Hnd.
  - intros e p He. rewrite !update_species_characters. now apply (Hsound e p).
  - intros u v Huv Hv. rewrite !update_species_characters.
    unfold update_vertex in Hv. cbn [hd_vertices] in Hv. rewrite length_alter in Hv.
    now apply Hcomplete.
  - unfold update_vertex. cbn [hd_vertices].
    rewrite (list_fmap_alter characters _ id) by (apply Forall_forall; reflexivity).
    now rewrite list_alter_id.
Qed.

Lemma elem_of_new_edge (u : HDVertex) (cs : list string) (k : HDVertex)
    (x : HDEdge * HDEdgeProperties) :
  x ∈ new_edge u cs k <-> cs <> [] /\ x = ((k, u), {| signedcharacters := gained cs |}).
Proof.
  unfold new_edge. destruct cs as [|c cs].
  - rewrite elem_of_nil. intuition congruence.
  - rewrite list_elem_of_singleton. intuition congruence.
Qed.

Lemma new_edges_nodup (u : HDVertex) (cs : HDVertex -> list string) (a m : nat) :
  NoDup (fst <$> (seq a m ≫= (fun k => new_edge u (cs k) k))).
Proof.
  revert a. induction m as [|m IH]; intros a; [constructor|].
  cbn [seq]. rewrite bind_cons, fmap_app. apply NoDup_app. split; [|split].
  - unfold new_edge. destruct (cs a); [constructor|apply NoDup_singleton].
  - intros e H1 H2. apply list_elem_of_fmap in H1 as [[e1 p1] [-> H1]].
    apply list_elem_of_fmap in H2 as [[e2 p2] [Heq H2]]. simpl in Heq. subst e2.
    apply elem_of_new_edge in H1 as [_ H1]. injection H1 as -> _.
    apply list_elem_of_bind in H2 as (k & H2 & Hk).
    apply elem_of_new_edge in H2 as [_ H2]. injection H2 as <-.
    apply elem_of_seq in Hk. lia.
  - apply IH.
Qed.

(** The diagram after a species with new character names has been added. *)
Lemma insert_fresh_shape (v_name : string) (lcv : list string) (hasse : HDGraph) :
  closed_diagram hasse ->
  let hasse' :=
    add_new_edges (length (hd_vertices hasse))
      (vertices hasse ≫= (fun k => pair k <$> queued hasse lcv k))
      (snd (add_vertex1 v_name lcv hasse)) in
  hd_vertices hasse' = hd_vertices hasse ++ [{| species := [v_name]; characters := lcv |}] /\
  hd_edges hasse' =
    hd_edges hasse ++
    (vertices hasse ≫= (fun k => new_edge (length (hd_vertices hasse)) (queued hasse lcv k) k)) /\
  hd_property hasse' = hd_property hasse.
Proof.
  intros Hc hasse'. subst hasse'. rewrite add_vertex1_spec. cbn [snd].
  destruct (add_new_edges_frame (length (hd_vertices hasse))
              (vertices hasse ≫= (fun k => pair k <$> queued hasse lcv k))
              {| hd_vertices := hd_vertices hasse ++ [{| species := [v_name]; characters := lcv |}];
                 hd_edges := hd_edges hasse;
                 hd_property := hd_property hasse |}) as [Hv Hp].
  split; [exact Hv|]. split; [|exact Hp].
  rewrite (add_new_edges_blocks _ (queued hasse lcv)); [reflexivity|apply NoDup_seq|].
  intros k _. cbn [hd_edges]. intros Hin.
  apply list_elem_of_fmap in Hin as [[e p] [Heq Hin]]. simpl in Heq. subst e.
  apply (edges_forward _ Hc) in Hin. simpl in Hin. lia.
Qed.

Lemma closed_diagram_insert_fresh (v_name : string) (lcv : list string) (hasse : HDGraph) :
  closed_diagram hasse ->
  (forall k, k < length (hd_vertices hasse) -> lcv <> characters (vertex_bundle hasse k)) ->
  closed_diagram
    (add_new_edges (length (hd_vertices hasse))
       (vertices hasse ≫= (fun k => pair k <$> queued hasse lcv k))
       (snd (add_vertex1 v_name lcv hasse))).
Proof.
  intros Hc Hfresh.
  destruct (insert_fresh_shape v_name lcv hasse Hc) as (Hv & He & _).
  set (hasse' := add_new_edges _ _ _) in *. set (n := length (hd_vertices hasse)) in *.
  assert (Hlen : length (hd_vertices hasse') = S n).
  { rewrite Hv, length_app. simpl. lia. }
  assert (Hold : forall j, j < n -> vertex_bundle hasse' j = vertex_bundle hasse j).
  { intros j Hj. unfold vertex_bundle. rewrite Hv. now apply lookup_total_app_l. }
  assert (Hnew : characters (vertex_bundle hasse' n) = lcv).
  { unfold vertex_bundle. rewrite Hv. subst n. now rewrite list_lookup_total_middle. }
  assert (Hin : forall x, x ∈ hd_edges hasse' <->
            x ∈ hd_edges hasse \/
            exists k, k < n /\ queued hasse lcv k <> [] /\
                      x = ((k, n), {| signedcharacters := gained (queued hasse lcv k) |})).
  { intros x. rewrite He, elem_of_app, list_elem_of_bind. apply or_iff_compat_l. split.
    - intros (k & Hx & Hk). apply elem_of_new_edge in Hx as [Hq ->].
      exists k. unfold vertices in Hk. apply elem_of_seq in Hk. repeat split; [lia|assumption].
    - intros (k & Hk & Hq & ->). exists k. split.
      + now apply elem_of_new_edge.
      + unfold vertices. apply elem_of_seq. lia. }
  destruct Hc as [Hfwd Hnd Hsound Hcomplete Hchars].
  assert (Hqueued : forall k, queued hasse lcv k <> [] ->
            strictly_included (characters (vertex_bundle hasse k)) lcv = true /\
            queued hasse lcv k = missing (characters (vertex_bundle hasse k)) lcv).
  { intros k Hq. unfold queued in *. rewrite strictly_included_missing.
    destruct (is_included (characters (vertex_bundle hasse k)) lcv); [auto|congruence]. }
  constructor.
  - intros e p Hx. rewrite Hlen. apply Hin in Hx as [Hx|(k & Hk & _ & Hx)].
    + apply Hfwd in Hx. fold n in Hx. lia.
    + injection Hx as -> _. simpl. lia.
  - rewrite He, fmap_app. apply NoDup_app. split; [assumption|]. split.
    + intros e Hold' Hnew'. apply list_elem_of_fmap in Hold' as [[e1 p1] [-> H1]].
      apply list_elem_of_fmap in Hnew' as [[e2 p2] [Heq H2]]. simpl in Heq. subst e2.
      apply Hfwd in H1. apply list_elem_of_bind in H2 as (k & H2 & _).
      apply elem_of_new_edge in H2 as [_ H2]. injection H2 as -> _.
      simpl in H1. fold n in H1. lia.
    + apply new_edges_nodup.
  - intros e p Hx. apply Hin in Hx as [Hx|(k & Hk & Hq & Hx)].
    + pose proof (Hfwd _ _ Hx) as Hlt. fold n in Hlt.
      rewrite !Hold by lia. now apply Hsound.
    + injection Hx as -> ->. cbn [fst snd signedcharacters].
      rewrite Hnew, Hold by assumption.
      destruct (Hqueued k Hq) as [Hs Hm]. now rewrite <- Hm.
  - intros u v Huv Hv'. rewrite Hlen in Hv'. unfold has_edge.
    destruct (decide (v = n)) as [->|Hvn].
    + rewrite Hnew, Hold by assumption. intros Hs.
      apply strictly_included_missing in Hs as [Hi Hm].
      assert (Hq : queued hasse lcv u = missing (characters (vertex_bundle hasse u)) lcv)
        by (unfold queued; now rewrite Hi).
      apply list_elem_of_fmap.
      exists ((u, n), {| signedcharacters := gained (queued hasse lcv u) |}).
      split; [reflexivity|]. apply Hin. right. exists u. rewrite Hq. auto.
    + rewrite !Hold by lia. intros Hs.
      assert (Hhas : has_edge hasse u v) by (apply Hcomplete; [assumption|fold n; lia|assumption]).
      unfold has_edge in Hhas. rewrite He, fmap_app. apply elem_of_app. now left.
  - rewrite Hv, fmap_app. apply NoDup_app. split; [assumption|]. split; [|apply NoDup_singleton].
    intros cs H1 H2. apply list_elem_of_singleton in H2. simpl in H2. subst cs.
    apply list_elem_of_fmap in H1 as [p [Heq Hp]].
    apply list_elem_of_lookup in Hp as [k Hk].
    apply (Hfresh k); [eapply lookup_lt_Some; eassumption|].
    unfold vertex_bundle. now rewrite (list_lookup_total_correct _ _ _ Hk).
Qed.

Lemma closed_diagram_empty (n : nat) : closed_diagram (empty_diagram n).
Proof.
  constructor; cbn.
  - intros e p H. inversion H.
  - constructor.
  - intros e p H. inversion H.
  - intros u v _ H. lia.
  - constructor.
Qed.

Lemma closed_diagram_first (v_name : string) (lcv : list string) (n : nat) :
  closed_diagram (snd (add_vertex1 v_name lcv (empty_diagram n))).
Proof.
  rewrite add_vertex1_spec. constructor; cbn.
  - intros e p H. inversion H.
  - constructor.
  - intros e p H. inversion H.
  - intros u v Huv Hv. lia.
  - apply NoDup_singleton.
Qed.

Lemma closed_diagram_insert (i : nat) (v_name : string) (lcv : list string) (hasse : HDGraph) :
  i <> 0 -> closed_diagram hasse -> closed_diagram (insert_species i v_name lcv hasse).
Proof.
  intros Hi Hc. destruct (hd_vertices hasse) as [|p vs] eqn:Hvs.
  - unfold insert_species. destruct (Nat.eqb_spec i 0); [contradiction|].
    unfold vertices. rewrite Hvs. exact Hc.
  - destruct (insert_species_cases i v_name lcv hasse Hi) as [(k & _ & _ & ->)|(Hfresh & ->)].
    + congruence.
    + now apply closed_diagram_update_species.
    + now apply closed_diagram_insert_fresh.
Qed.

Lemma closed_diagram_build_pairs (pairs : list (string * list string)) :
  forall i hasse, i <> 0 -> closed_diagram hasse -> closed_diagram (build_pairs i pairs hasse).
Proof.
  induction pairs as [|p pairs IH]; intros i hasse Hi Hc; [exact Hc|].
  cbn [build_pairs]. apply IH; [lia|]. now apply closed_diagram_insert.
Qed.

(** Whatever the arrangement of the species, the loop over [sets] run on
    an empty diagram leaves a closed diagram. *)
Lemma closed_diagram_build_pairs_empty (pairs : list (string * list string)) (n : nat) :
  closed_diagram (build_pairs 0 pairs (empty_diagram n)).
Proof.
  destruct pairs as [|p pairs]; [apply closed_diagram_empty|].
  cbn [build_pairs]. apply closed_diagram_build_pairs; [lia|].
  unfold insert_species. cbn [Nat.eqb]. apply closed_diagram_first.
Qed.

Lemma build_Some (g : RBGraph) (v_map : gmap RBVertex (list RBVertex))
    (sets : list (list RBVertex)) :
  forall i hasse hasse',
    build g v_map i sets hasse = Some hasse' <->
    exists pairs, Forall2 (fun s p => species_pair g v_map s = Some p) sets pairs /\
                  hasse' = build_pairs i pairs hasse.
Proof.
  induction sets as [|s sets IH]; intros i hasse hasse'; cbn [build].
  - split.
    + intros [= <-]. exists []. split; [constructor|reflexivity].
    + intros (pairs & HF & ->). inversion HF. reflexivity.
  - destruct (head s) as [v|] eqn:Hs; cbn.
    + rewrite IH. split.
      * intros (pairs & HF & ->). eexists (_ :: pairs). split; [constructor; [|exact HF]|].
        -- unfold species_pair. rewrite Hs. reflexivity.
        -- reflexivity.
      * intros (pairs & HF & ->). inversion HF as [|s' p sets' pairs' Hp HF']; subst.
        unfold species_pair in Hp. rewrite Hs in Hp. injection Hp as <-.
        exists pairs'. split; [assumption|reflexivity].
    + split; [discriminate|]. intros (pairs & HF & _).
      inversion HF as [|s' p sets' pairs' Hp HF']; subst.
      unfold species_pair in Hp. rewrite Hs in Hp. discriminate.
Qed.

(** *** The closing loop: transitive reduction *)

Lemma removes_only_refl (sources : list HDVertex) (hasse : HDGraph) :
  removes_only sources hasse hasse.
Proof. unfold removes_only. auto. Qed.

Lemma removes_only_trans (s1 s2 : list HDVertex) (h1 h2 h3 : HDGraph) :
  removes_only s1 h1 h2 -> removes_only s2 h2 h3 -> removes_only (s1 ++ s2) h1 h3.
Proof.
  intros (Hv1 & Hp1 & Hs1 & Hk1) (Hv2 & Hp2 & Hs2 & Hk2).
  split; [congruence|]. split; [congruence|]. split; [auto|].
  intros x Hx Hn. rewrite elem_of_app in Hn. apply Hk2; [apply Hk1|]; tauto.
Qed.

Lemma removes_only_weaken (s1 s2 : list HDVertex) (h1 h2 : HDGraph) :
  (forall p, p ∈ s1 -> p ∈ s2) -> removes_only s1 h1 h2 -> removes_only s2 h1 h2.
Proof.
  intros Hs (Hv & Hp & Hsub & Hk). repeat split; auto.
Qed.

Lemma removes_only_has_edge (sources : list HDVertex) (h1 h2 : HDGraph) (u v : HDVertex) :
  removes_only sources h1 h2 -> has_edge h2 u v -> has_edge h1 u v.
Proof.
  intros (_ & _ & Hsub & _). unfold has_edge. rewrite !list_elem_of_fmap.
  intros (x & Hx & Hin). exists x. auto.
Qed.

Lemma removes_only_keeps (sources : list HDVertex) (h1 h2 : HDGraph) (u v : HDVertex) :
  removes_only sources h1 h2 -> u ∉ sources -> has_edge h1 u v -> has_edge h2 u v.
Proof.
  intros (_ & _ & _ & Hk). unfold has_edge. rewrite !list_elem_of_fmap.
  intros Hn ([e p] & Hx & Hin). simpl in Hx. subst e. exists ((u, v), p). split; [reflexivity|].
  now apply Hk.
Qed.

Lemma remove_edge_elem (e : HDEdge) (hasse : HDGraph) (x : HDEdge * HDEdgeProperties) :
  x ∈ hd_edges (remove_edge e hasse) <-> x ∈ hd_edges hasse /\ fst x <> e.
Proof. unfold remove_edge. cbn [hd_edges]. rewrite list_elem_of_filter. tauto. Qed.

Lemma reduce_out_edges_spec (ie : HDEdge) (oes : list HDEdge) :
  forall hasse,
    hd_vertices (reduce_out_edges ie oes hasse) = hd_vertices hasse /\
    hd_property (reduce_out_edges ie oes hasse) = hd_property hasse /\
    forall x, x ∈ hd_edges (reduce_out_edges ie oes hasse) <->
              x ∈ hd_edges hasse /\ forall oe, oe ∈ oes -> fst x <> (source ie, target oe).
Proof.
  induction oes as [|oe oes IH]; intros hasse; cbn [reduce_out_edges].
  - split; [reflexivity|]. split; [reflexivity|]. intros x. split; [|tauto].
    intros H. split; [assumption|]. intros oe Hoe. inversion Hoe.
  - unfold edge. case_bool_decide as Hex; cbn [negb].
    + destruct (IH (remove_edge (source ie, target oe) hasse)) as (Hv & Hp & Hx).
      split; [exact Hv|]. split; [exact Hp|]. intros x. rewrite Hx, remove_edge_elem.
      split.
      * intros [[Hin Hne] Hall]. split; [assumption|]. intros oe' Hoe'.
        apply elem_of_cons in Hoe' as [->|Hoe']; auto.
      * intros [Hin Hall]. split; [split; [assumption|]|].
        -- apply Hall, list_elem_of_here.
        -- intros oe' Hoe'. apply Hall. now apply list_elem_of_further.
    + destruct (IH hasse) as (Hv & Hp & Hx).
      split; [exact Hv|]. split; [exact Hp|]. intros x. rewrite Hx. split.
      * intros [Hin Hall]. split; [assumption|]. intros oe' Hoe'.
        apply elem_of_cons in Hoe' as [->|Hoe']; [|auto].
        intros Heq. apply Hex. apply list_elem_of_fmap. exists x. auto.
      * intros [Hin Hall]. split; [assumption|]. intros oe' Hoe'. apply Hall.
        now apply list_elem_of_further.
Qed.

Lemma reduce_out_edges_removes_only (ie : HDEdge) (oes : list HDEdge) (hasse : HDGraph) :
  removes_only [source ie] hasse (reduce_out_edges ie oes hasse).
Proof.
  destruct (reduce_out_edges_spec ie oes hasse) as (Hv & Hp & Hx).
  split; [exact Hv|]. split; [exact Hp|]. split.
  - intros x H. now apply Hx in H.
  - intros x Hin Hn. apply Hx. split; [assumption|]. intros oe _ Heq.
    apply Hn. rewrite Heq. apply list_elem_of_here.
Qed.

Lemma reduce_in_edges_removes_only (u : HDVertex) (ies : list HDEdge) :
  forall hasse, removes_only (source <$> ies) hasse (reduce_in_edges u ies hasse).
Proof.
  induction ies as [|ie ies IH]; intros hasse; cbn [reduce_in_edges].
  - apply removes_only_refl.
  - rewrite fmap_cons. change (source ie :: (source <$> ies)) with ([source ie] ++ (source <$> ies)).
    eapply removes_only_trans; [apply reduce_out_edges_removes_only|apply IH].
Qed.

Lemma elem_of_out_edges (u q : HDVertex) (hasse : HDGraph) :
  (u, q) ∈ out_edges u hasse <-> has_edge hasse u q.
Proof. unfold out_edges, has_edge. rewrite list_elem_of_filter. unfold source. simpl. tauto. Qed.

Lemma elem_of_in_edges (p u : HDVertex) (hasse : HDGraph) :
  (p, u) ∈ in_edges u hasse <-> has_edge hasse p u.
Proof. unfold in_edges, has_edge. rewrite list_elem_of_filter. unfold target. simpl. tauto. Qed.

(** After the loop over the in-edges, no edge leads from the source of one
    of them to the target of an out-edge of [u]. *)
Lemma reduce_in_edges_removes (u : HDVertex) (ies : list HDEdge) :
  forall hasse ie q,
    u ∉ source <$> ies ->
    ie ∈ ies ->
    has_edge hasse u q ->
    ~ has_edge (reduce_in_edges u ies hasse) (source ie) q.
Proof.
  induction ies as [|ie0 ies IH]; intros hasse ie q Hu Hie Hq; [inversion Hie|].
  rewrite fmap_cons in Hu. apply not_elem_of_cons in Hu as [Hu0 Hu].
  cbn [reduce_in_edges].
  set (h1 := reduce_out_edges ie0 (out_edges u hasse) hasse).
  assert (Hq1 : has_edge h1 u q).
  { eapply removes_only_keeps; [apply reduce_out_edges_removes_only| |exact Hq].
    intros Hin. apply list_elem_of_singleton in Hin. congruence. }
  apply elem_of_cons in Hie as [->|Hie]; [|now apply IH].
  intros Hhas.
  apply (removes_only_has_edge _ _ _ _ _ (reduce_in_edges_removes_only u ies h1)) in Hhas.
  unfold has_edge in Hhas. apply list_elem_of_fmap in Hhas as (x & Hx & Hin).
  subst h1. apply reduce_out_edges_spec in Hin as [_ Hall].
  apply (Hall (u, q)); [now apply elem_of_out_edges|]. now rewrite <- Hx.
Qed.

Lemma reduce_vertex_removes_only (u : HDVertex) (hasse : HDGraph) :
  removes_only (source <$> in_edges u hasse) hasse (reduce_vertex u hasse).
Proof.
  unfold reduce_vertex. destruct (_ || _); [apply removes_only_refl|].
  apply reduce_in_edges_removes_only.
Qed.

Lemma reduce_vertex_removes (u p q : HDVertex) (hasse : HDGraph) :
  ~ has_edge hasse u u ->
  has_edge hasse p u -> has_edge hasse u q ->
  ~ has_edge (reduce_vertex u hasse) p q.
Proof.
  intros Hloop Hp Hq. unfold reduce_vertex.
  assert (Hin : (p, u) ∈ in_edges u hasse) by now apply elem_of_in_edges.
  assert (Hout : (u, q) ∈ out_edges u hasse) by now apply elem_of_out_edges.
  unfold in_degree, out_degree.
  destruct (in_edges u hasse) as [|ie ies] eqn:Hie; [inversion Hin|].
  destruct (out_edges u hasse) as [|oe oes] eqn:Hoe; [inversion Hout|].
  cbn [length Nat.eqb orb]. rewrite <- Hie in *.
  apply (reduce_in_edges_removes u (in_edges u hasse) hasse (p, u) q); [|assumption|assumption].
  intros Hu. apply list_elem_of_fmap in Hu as ([a b] & Ha & Hab).
  unfold source in Ha. simpl in Ha. subst a.
  unfold in_edges in Hab. apply list_elem_of_filter in Hab as [Hb Hab].
  unfold target in Hb. simpl in Hb. subst b. exact (Hloop Hab).
Qed.

Lemma reduce_vertices_app (us1 us2 : list HDVertex) (hasse : HDGraph) :
  reduce_vertices (us1 ++ us2) hasse = reduce_vertices us2 (reduce_vertices us1 hasse).
Proof.
  revert hasse. induction us1 as [|u us1 IH]; intros hasse; [reflexivity|].
  cbn [app reduce_vertices]. apply IH.
Qed.

(** The closing loop only removes edges. *)
Lemma reduce_vertices_sub (us : list HDVertex) :
  forall hasse,
    hd_vertices (reduce_vertices us hasse) = hd_vertices hasse /\
    hd_property (reduce_vertices us hasse) = hd_property hasse /\
    forall x, x ∈ hd_edges (reduce_vertices us hasse) -> x ∈ hd_edges hasse.
Proof.
  induction us as [|u us IH]; intros hasse; cbn [reduce_vertices]; [auto|].
  destruct (IH (reduce_vertex u hasse)) as (Hv & Hp & Hsub).
  destruct (reduce_vertex_removes_only u hasse) as (Hv' & Hp' & Hsub' & _).
  split; [congruence|]. split; [congruence|]. auto.
Qed.

Lemma reduce_vertices_has_edge (us : list HDVertex) (hasse : HDGraph) (a b : HDVertex) :
  has_edge (reduce_vertices us hasse) a b -> has_edge hasse a b.
Proof.
  destruct (reduce_vertices_sub us hasse) as (_ & _ & Hsub).
  unfold has_edge. rewrite !list_elem_of_fmap. intros (x & Hx & Hin). exists x. auto.
Qed.

(** An edge stays as long as its source has no edge to a vertex that the
    loop visits. *)
Lemma reduce_vertices_keeps (us : list HDVertex) (a b : HDVertex) :
  forall hasse,
    (forall u, u ∈ us -> ~ has_edge hasse a u) ->
    has_edge hasse a b ->
    has_edge (reduce_vertices us hasse) a b.
Proof.
  induction us as [|u us IH]; intros hasse Hno Hab; cbn [reduce_vertices]; [assumption|].
  pose proof (reduce_vertex_removes_only u hasse) as Hr.
  apply IH.
  - intros u' Hu' Hhas. apply (Hno u'); [now apply list_elem_of_further|].
    eapply removes_only_has_edge; eassumption.
  - eapply removes_only_keeps; [exact Hr| |exact Hab].
    intros Hin. apply list_elem_of_fmap in Hin as ([p q] & Hp & Hin).
    unfold source in Hp. simpl in Hp. subst p.
    unfold in_edges in Hin. apply list_elem_of_filter in Hin as [Hq Hin].
    unfold target in Hq. simpl in Hq. subst q.
    apply (Hno u); [apply list_elem_of_here|exact Hin].
Qed.

(** The heart of the transitive reduction: on a diagram whose edges lead
    from a vertex to a later one, an edge from [p] to [q] does not survive
    the closing loop together with an edge from [p] to [x] when the diagram
    had an edge from [x] to [q]. *)
Lemma reduce_vertices_removes (hasse : HDGraph) (p x q : HDVertex) :
  (forall a b, has_edge hasse a b -> a < b /\ b < length (hd_vertices hasse)) ->
  has_edge (reduce_vertices (vertices hasse) hasse) p x ->
  has_edge hasse x q ->
  ~ has_edge (reduce_vertices (vertices hasse) hasse) p q.
Proof.
  intros Hfwd Hpx Hxq.
  set (n := length (hd_vertices hasse)).
  assert (Hx : x < n).
  { apply reduce_vertices_has_edge in Hpx. apply Hfwd in Hpx. fold n in Hpx. lia. }
  assert (Hsplit : vertices hasse = seq 0 x ++ x :: seq (S x) (n - S x)).
  { unfold vertices. fold n. replace n with (x + S (n - S x)) at 1 by lia.
    rewrite seq_app. reflexivity. }
  rewrite Hsplit in *. rewrite reduce_vertices_app in *. cbn [reduce_vertices] in *.
  set (hx := reduce_vertices (seq 0 x) hasse) in *.
  apply reduce_vertices_has_edge in Hpx.
  assert (Hpx' : has_edge hx p x).
  { eapply removes_only_has_edge; [apply reduce_vertex_removes_only|exact Hpx]. }
  assert (Hxq' : has_edge hx x q).
  { subst hx. apply reduce_vertices_keeps; [|assumption].
    intros u Hu Hhas. apply elem_of_seq in Hu. apply Hfwd in Hhas. lia. }
  assert (Hloop : ~ has_edge hx x x).
  { intros Hhas. subst hx. apply reduce_vertices_has_edge in Hhas. apply Hfwd in Hhas. lia. }
  intros Hpq. apply reduce_vertices_has_edge in Hpq.
  exact (reduce_vertex_removes x p q hx Hloop Hpx' Hxq' Hpq).
Qed.

(** *** Paths of a closed diagram *)

Lemma closed_diagram_has_edge (hasse : HDGraph) (a b : HDVertex) :
  closed_diagram hasse -> has_edge hasse a b ->
  a < b /\ b < length (hd_vertices hasse) /\
  strictly_included (characters (vertex_bundle hasse a))
                    (characters (vertex_bundle hasse b)) = true.
Proof.
  intros Hc Hab. unfold has_edge in Hab.
  apply list_elem_of_fmap in Hab as ([e p] & He & Hin). simpl in He. subst e.
  pose proof (edges_forward _ Hc _ _ Hin) as Hf.
  pose proof (edges_sound _ Hc _ _ Hin) as [Hs _]. simpl in *. tauto.
Qed.

Lemma closed_diagram_path (hasse : HDGraph) (m : nat) (a b : HDVertex) :
  closed_diagram hasse -> path hasse m a b ->
  a < b /\ b < length (hd_vertices hasse) /\
  strictly_included (characters (vertex_bundle hasse a))
                    (characters (vertex_bundle hasse b)) = true.
Proof.
  intros Hc Hp. induction Hp as [u v Huv|m u w v Huw Hp IH].
  - now apply closed_diagram_has_edge.
  - destruct (closed_diagram_has_edge _ _ _ Hc Huw) as (H1 & H2 & H3).
    destruct IH as (H4 & H5 & H6). split; [lia|]. split; [assumption|].
    eapply strictly_included_trans; eassumption.
Qed.

Lemma path_sub (h1 h2 : HDGraph) (m : nat) (a b : HDVertex) :
  (forall u v, has_edge h2 u v -> has_edge h1 u v) -> path h2 m a b -> path h1 m a b.
Proof.
  intros Hsub Hp. induction Hp as [u v Huv|m u w v Huw Hp IH].
  - apply path_edge. auto.
  - eapply path_step; eauto.
Qed.

(** Whatever the arrangement of the species, the closing loop run on the
    diagram built for them leaves an acyclic, transitively reduced diagram,
    and the edges it leaves are labelled as the closed diagram labelled
    them. *)
Lemma reduced_diagram (hasse : HDGraph) :
  closed_diagram hasse ->
  let reduced := reduce_vertices (vertices hasse) hasse in
  acyclic reduced /\
  transitively_reduced reduced /\
  (forall p w q, has_edge reduced p w -> has_edge reduced w q -> ~ has_edge reduced p q) /\
  (forall u v l, labelled_edge reduced u v l ->
     strictly_included (characters (vertex_bundle reduced u))
                       (characters (vertex_bundle reduced v)) = true /\
     l = gained (missing (characters (vertex_bundle reduced u))
                         (characters (vertex_bundle reduced v)))).
Proof.
  intros Hc reduced.
  assert (Hfwd : forall a b, has_edge hasse a b -> a < b /\ b < length (hd_vertices hasse)).
  { intros a b Hab. destruct (closed_diagram_has_edge _ _ _ Hc Hab) as (? & ? & _). now split. }
  pose proof (reduce_vertices_has_edge (vertices hasse) hasse) as Hsub. fold reduced in Hsub.
  destruct (reduce_vertices_sub (vertices hasse) hasse) as (Hv & _ & Hin). fold reduced in Hv, Hin.
  split; [|split; [|split]].
  - intros m v Hp. apply (path_sub hasse) in Hp; [|assumption].
    apply (closed_diagram_path _ _ _ _ Hc) in Hp. lia.
  - intros m u v Hm Huv Hp. inversion Hp as [? ? Huv' | m' ? w ? Huw Hp']; subst; [lia|].
    apply (path_sub hasse) in Hp'; [|assumption].
    destruct (closed_diagram_path _ _ _ _ Hc Hp') as (Hlt & Hlen & Hs).
    assert (Hwv : has_edge hasse w v) by now apply (edges_complete _ Hc).
    exact (reduce_vertices_removes hasse u w v Hfwd Huw Hwv Huv).
  - intros p w q Hpw Hwq. apply Hsub in Hwq.
    exact (reduce_vertices_removes hasse p w q Hfwd Hpw Hwq).
  - intros u v l Hl. unfold labelled_edge in Hl. apply Hin in Hl.
    unfold vertex_bundle. rewrite Hv.
    destruct (edges_sound _ Hc _ _ Hl) as [Hs Hlab]. now split.
Qed.

(** What [hasse_diagram] returns is the closing loop run on the diagram
    built for some arrangement of pairs (species name, character names). *)
Lemma hasse_diagram_Some (hasse : HDGraph) (g : RBGraph) (result : HDGraph) :
  hasse_diagram hasse g = Some result ->
  exists sets v_map pairs,
    collect_species g (RBG.vertices g) 0 (replicate (num_species g) []) ∅ = Some (sets, v_map) /\
    Forall2 (fun s p => species_pair g v_map s = Some p) (std_sort ascending_size sets) pairs /\
    result = reduce_vertices (vertices (build_pairs 0 pairs hasse)) (build_pairs 0 pairs hasse).
Proof.
  unfold hasse_diagram.
  destruct (collect_species _ _ _ _ _) as [[sets v_map]|]; [|discriminate]. cbn.
  destruct (build g v_map 0 (std_sort ascending_size sets) hasse) as [h1|] eqn:Hb; [|discriminate].
  cbn. intros [= <-]. apply build_Some in Hb as (pairs & HF & ->).
  exists sets, v_map, pairs. auto.
Qed.

(** *** The diagram that [hasse_diagram] returns *)

Lemma strictly_included_spec (a b : list string) :
  strictly_included a b = true <->
  (forall c, c ∈ a -> c ∈ b) /\ exists c, c ∈ b /\ c ∉ a.
Proof.
  rewrite strictly_included_missing, is_included_true. apply and_iff_compat_l.
  unfold missing. split.
  - intros Hm. destruct (filter (fun c => c ∉ a) b) as [|c l] eqn:Hf; [congruence|].
    exists c. assert (Hc : c ∈ filter (fun c => c ∉ a) b) by (rewrite Hf; apply list_elem_of_here).
    apply list_elem_of_filter in Hc. tauto.
  - intros (c & Hb & Ha) Hf. eapply filter_nil_not_elem_of; [exact Hf|exact Ha|exact Hb].
Qed.

(** C1, as the code has it: in the diagram that [hasse_diagram] returns,
    the character names of the source of an edge are all among those of its
    target, the target has a name that the source lacks, and the label of
    the edge is the list of the names of the target that the source lacks,
    in the order in which the target lists them (the order of the out-edges
    of the species; the names are not sorted), each tagged [gain]. *)
Theorem hasse_diagram_edge_label (g : RBGraph) (n : nat) (hasse : HDGraph)
    (u v : HDVertex) (l : list SignedCharacter) :
  hasse_diagram (empty_diagram n) g = Some hasse ->
  labelled_edge hasse u v l ->
  (forall c, c ∈ characters (vertex_bundle hasse u) ->
             c ∈ characters (vertex_bundle hasse v)) /\
  (exists c, c ∈ characters (vertex_bundle hasse v) /\
             c ∉ characters (vertex_bundle hasse u)) /\
  l = gained (missing (characters (vertex_bundle hasse u))
                      (characters (vertex_bundle hasse v))).
Proof.
  intros Hh Hl. apply hasse_diagram_Some in Hh as (sets & v_map & pairs & _ & _ & ->).
  destruct (reduced_diagram _ (closed_diagram_build_pairs_empty pairs n)) as (_ & _ & _ & Hlab).
  destruct (Hlab u v l Hl) as [Hs ->]. apply strictly_included_spec in Hs as [Hsub Hex].
  auto.
Qed.

Lemma hasse_diagram_edge_label_witness :
  exists hasse,
    hasse_diagram (empty_diagram 0) Fixtures.unsorted_graph = Some hasse /\
    labelled_edge hasse 0 1 [{| character := "c2"; state := gain |};
                             {| character := "c10"; state := gain |}] /\
    gained (missing (characters (vertex_bundle hasse 0)) (characters (vertex_bundle hasse 1)))
      = [{| character := "c2"; state := gain |}; {| character := "c10"; state := gain |}].
Proof.
  eexists. split; [vm_compute; reflexivity|].
  assert (Hl : labelled_edge
      {| hd_vertices := [{| species := ["s1"]; characters := ["c1"] |};
                         {| species := ["s2"]; characters := ["c1"; "c2"; "c10"] |}];
         hd_edges := [((0, 1), {| signedcharacters :=
                        [{| character := "c2"; state := gain |};
                         {| character := "c10"; state := gain |}] |})];
         hd_property := {| g := None; gm := None; num_v := 0 |} |}
      0 1 [{| character := "c2"; state := gain |}; {| character := "c10"; state := gain |}])
    by apply list_elem_of_here.
  split; [exact Hl|].
  destruct (hasse_diagram_edge_label Fixtures.unsorted_graph 0 _ 0 1 _ eq_refl Hl) as (_ & _ & H).
  symmetry. exact H.
Defined.

(** C1, as the specification words it, fails: the label of the edge from
    the vertex of s1 to the vertex of s2 lists c2 before c10, in the order of
    the out-edges of s2, and sorted by name c10 comes first. *)
Lemma sorted_label_counterexample :
  exists hasse u v l,
    hasse_diagram (empty_diagram 0) Fixtures.unsorted_graph = Some hasse /\
    labelled_edge hasse u v l /\
    l <> sorted_gained (characters (vertex_bundle hasse u))
                       (characters (vertex_bundle hasse v)).
Proof.
  eexists. exists 0, 1. eexists. split; [vm_compute; reflexivity|].
  split; [apply list_elem_of_here|]. vm_compute. discriminate.
Qed.

(** C2: the diagram that [hasse_diagram] returns has no cycle, no edge
    from [u] to [v] beside a path of two or more edges from [u] to [v], and
    in particular no edge from [p] to [q] beside an edge from [p] to some
    [w] and an edge from [w] to [q]. *)
Theorem hasse_diagram_transitively_reduced (g : RBGraph) (n : nat) (hasse : HDGraph) :
  hasse_diagram (empty_diagram n) g = Some hasse ->
  acyclic hasse /\
  transitively_reduced hasse /\
  (forall p w q, has_edge hasse p w -> has_edge hasse w q -> ~ has_edge hasse p q).
Proof.
  intros Hh. apply hasse_diagram_Some in Hh as (sets & v_map & pairs & _ & _ & ->).
  destruct (reduced_diagram _ (closed_diagram_build_pairs_empty pairs n)) as (Ha & Ht & Hw & _).
  auto.
Qed.

Lemma hasse_diagram_transitively_reduced_witness :
  exists hasse,
    hasse_diagram (empty_diagram 0) Fixtures.chain_graph = Some hasse /\
    fst <$> hd_edges hasse = [(0, 1); (1, 2)] /\
    acyclic hasse /\ transitively_reduced hasse.
Proof.
  eexists. split; [vm_compute; reflexivity|]. split; [reflexivity|].
  destruct (hasse_diagram_transitively_reduced Fixtures.chain_graph 0 _ eq_refl) as (Ha & Ht & _).
  split; assumption.
Defined.

(** *** Collecting the species *)

Lemma sets_push_back_spec (done : list (list RBVertex)) (l : list RBVertex)
    (rest : list (list RBVertex)) (x : RBVertex) :
  sets_push_back (length done) x (done ++ l :: rest) = Some (done ++ (l ++ [x]) :: rest).
Proof.
  unfold sets_push_back. rewrite bool_decide_eq_true_2 by (rewrite length_app; simpl; lia).
  replace (length done) with (length done + 0) at 1 by lia. now rewrite alter_app_r.
Qed.

Lemma sets_push_back_None (done : list (list RBVertex)) (x : RBVertex) :
  sets_push_back (length done) x done = None.
Proof. unfold sets_push_back. now rewrite bool_decide_eq_false_2 by lia. Qed.

Lemma collect_out_edges_spec (v : RBVertex) (targets : list RBVertex)
    (done : list (list RBVertex)) (rest : list (list RBVertex)) :
  forall (l : list RBVertex) (v_map : gmap RBVertex (list RBVertex)),
  exists v_map',
    collect_out_edges (length done) v targets (done ++ l :: rest) v_map =
      Some (done ++ (l ++ targets) :: rest, v_map') /\
    v_map' !!! v = v_map !!! v ++ targets /\
    forall k, k <> v -> v_map' !!! k = v_map !!! k.
Proof.
  induction targets as [|vt targets IH]; intros l v_map; cbn [collect_out_edges].
  - exists v_map. rewrite !app_nil_r. auto.
  - rewrite sets_push_back_spec. cbn.
    destruct (IH (l ++ [vt]) (v_map_push_back v vt v_map)) as (v_map' & Heq & Hv & Hk).
    exists v_map'. rewrite Heq, <- app_assoc. split; [reflexivity|].
    unfold v_map_push_back in *. split.
    + rewrite Hv, lookup_total_insert_eq, <- app_assoc. reflexivity.
    + intros k Hne. rewrite (Hk k Hne). now rewrite lookup_total_insert_ne.
Qed.

Lemma collect_species_spec (g : RBGraph) (vs : list RBVertex) :
  forall (done : list (list RBVertex)) (k : nat) (v_map : gmap RBVertex (list RBVertex)),
    NoDup vs ->
    (forall v, v ∈ vs -> v_map !!! v = []) ->
    let sp := filter (fun v => is_species v g = true) vs in
    (length sp <= k ->
     exists v_map',
       collect_species g vs (length done) (done ++ replicate k []) v_map =
         Some (done ++ (species_set g <$> sp) ++ replicate (k - length sp) [], v_map') /\
       (forall v, v ∈ sp -> v_map' !!! v = out_targets v g) /\
       (forall v, v ∉ vs -> v_map' !!! v = v_map !!! v)) /\
    (k < length sp ->
     collect_species g vs (length done) (done ++ replicate k []) v_map = None).
Proof.
  induction vs as [|v vs IH]; intros done k v_map Hnd Hempty sp; subst sp.
  - cbn. split; [|lia]. intros _. exists v_map. rewrite Nat.sub_0_r. split; [reflexivity|].
    split; [|auto]. intros v Hv. inversion Hv.
  - apply NoDup_cons in Hnd as [Hv Hnd]. cbn [collect_species].
    destruct (is_species v g) eqn:Hs; cbn [negb].
    + rewrite filter_cons_True by assumption. cbn [length fmap list_fmap].
      destruct k as [|k].
      * split; [lia|]. intros _. cbn [replicate]. rewrite app_nil_r.
        now rewrite sets_push_back_None.
      * cbn [replicate]. rewrite sets_push_back_spec. cbn [mbind option_bind].
        destruct (collect_out_edges_spec v (out_targets v g) done (replicate k []) ([] ++ [v]) v_map)
          as (v_map1 & Heq & Hv1 & Hk1).
        rewrite Heq. cbn [mbind option_bind].
        assert (Hempty1 : forall v', v' ∈ vs -> v_map1 !!! v' = []).
        { intros v' Hv'. rewrite Hk1 by (intros ->; contradiction).
          apply Hempty. now apply list_elem_of_further. }
        destruct (IH (done ++ [species_set g v]) k v_map1 Hnd Hempty1) as [IH1 IH2].
        rewrite length_app in IH1, IH2. cbn [length] in IH1, IH2.
        rewrite Nat.add_1_r, <- !app_assoc in IH1, IH2.
        change ([species_set g v] ++ ?x) with (species_set g v :: x) in IH1, IH2.
        change (([] ++ [v]) ++ out_targets v g) with (species_set g v).
        split.
        -- intros Hle. destruct IH1 as (v_map' & Heq' & Hsp & Hout); [lia|].
           exists v_map'. split; [|split].
           ++ rewrite Heq'. rewrite <- app_assoc. reflexivity.
           ++ intros v' Hv'. apply elem_of_cons in Hv' as [->|Hv']; [|now apply Hsp].
              rewrite Hout by assumption. rewrite Hv1.
              rewrite (Hempty v) by apply list_elem_of_here. reflexivity.
           ++ intros v' Hv'. apply not_elem_of_cons in Hv' as [Hne Hv'].
              rewrite Hout by assumption. now apply Hk1.
        -- intros Hlt. apply IH2. lia.
    + rewrite filter_cons_False by congruence.
      assert (Hempty1 : forall v', v' ∈ vs -> v_map !!! v' = []).
      { intros v' Hv'. apply Hempty. now apply list_elem_of_further. }
      destruct (IH done k v_map Hnd Hempty1) as [IH1 IH2]. split; [|exact IH2].
      intros Hle. destruct (IH1 Hle) as (v_map' & Heq' & Hsp & Hout).
      exists v_map'. split; [exact Heq'|]. split; [exact Hsp|].
      intros v' Hv'. apply not_elem_of_cons in Hv' as [_ Hv']. now apply Hout.
Qed.

(** What the loop over the vertices of [g] returns: one entry per species,
    in vertex order, then the entries that were not used; and [v_map] holds
    the out-edge targets of every species. *)
Lemma collect_species_Some (g : RBGraph) (sets : list (list RBVertex))
    (v_map : gmap RBVertex (list RBVertex)) :
  collect_species g (RBG.vertices g) 0 (replicate (num_species g) []) ∅ = Some (sets, v_map) ->
  length (species_of g) <= num_species g /\
  sets = (species_set g <$> species_of g) ++
         replicate (num_species g - length (species_of g)) [] /\
  forall v, v ∈ species_of g -> v_map !!! v = out_targets v g.
Proof.
  intros Hc.
  destruct (collect_species_spec g (RBG.vertices g) [] (num_species g) ∅) as [H1 H2].
  { apply NoDup_seq. }
  { intros v _. rewrite lookup_total_alt, lookup_empty. reflexivity. }
  cbn [app length] in H1, H2. fold (species_of g) in H1, H2.
  destruct (le_lt_dec (length (species_of g)) (num_species g)) as [Hle|Hlt].
  - destruct (H1 Hle) as (v_map' & Heq & Hsp & _). rewrite Heq in Hc.
    injection Hc as <- <-. auto.
  - rewrite (H2 Hlt) in Hc. discriminate.
Qed.

Lemma sort_insert_elem {A} (comp : A -> A -> bool) (x y : A) (l : list A) :
  y ∈ sort_insert comp x l <-> y = x \/ y ∈ l.
Proof.
  induction l as [|z l IH]; cbn [sort_insert].
  - rewrite list_elem_of_singleton, elem_of_nil. tauto.
  - destruct (comp z x); rewrite !elem_of_cons; [rewrite IH|]; tauto.
Qed.

Lemma std_sort_elem {A} (comp : A -> A -> bool) (y : A) (l : list A) :
  y ∈ std_sort comp l <-> y ∈ l.
Proof.
  induction l as [|x l IH]; cbn [std_sort]; [reflexivity|].
  rewrite sort_insert_elem, elem_of_cons, IH. reflexivity.
Qed.

(** Every species of [g] is among the pairs that the loop over [sets] works
    on, with its name and the names of its adjacent characters. *)
Lemma species_among_pairs (g : RBGraph) (sets : list (list RBVertex))
    (v_map : gmap RBVertex (list RBVertex)) (pairs : list (string * list string))
    (v : RBVertex) :
  collect_species g (RBG.vertices g) 0 (replicate (num_species g) []) ∅ = Some (sets, v_map) ->
  Forall2 (fun s p => species_pair g v_map s = Some p) (std_sort ascending_size sets) pairs ->
  v ∈ species_of g ->
  (name (bundle g v), adjacent_names g v) ∈ pairs.
Proof.
  intros Hc HF Hv. apply collect_species_Some in Hc as (_ & -> & Hmap).
  assert (Hin : species_set g v ∈ std_sort ascending_size
            ((species_set g <$> species_of g) ++
             replicate (num_species g - length (species_of g)) [])).
  { apply std_sort_elem, elem_of_app. left. now apply list_elem_of_fmap_2. }
  apply list_elem_of_lookup in Hin as [i Hi].
  destruct (Forall2_lookup_l _ _ _ _ _ HF Hi) as (p & Hp & Hsp).
  unfold species_pair, species_set in Hsp. cbn [head] in Hsp.
  rewrite (Hmap v Hv) in Hsp. injection Hsp as <-.
  eapply list_elem_of_lookup_2. exact Hp.
Qed.

(** *** Species with the same characters share a vertex *)

Lemma represents_update_species (k : HDVertex) (v_name : string) (hasse : HDGraph)
    (nm : string) (lcv : list string) :
  represents hasse nm lcv ->
  represents
    (update_vertex (fun p => {| species := species p ++ [v_name]; characters := characters p |})
                   k hasse) nm lcv.
Proof.
  intros (k0 & hv & Hk0 & Hc & Hs). unfold represents, update_vertex. cbn [hd_vertices].
  destruct (decide (k = k0)) as [->|Hne].
  - exists k0, {| species := species hv ++ [v_name]; characters := characters hv |}.
    rewrite list_lookup_alter_eq, Hk0. cbn. split; [reflexivity|]. split; [assumption|].
    apply elem_of_app. now left.
  - exists k0, hv. rewrite list_lookup_alter_ne by assumption. auto.
Qed.

Lemma represents_update_self (k : HDVertex) (v_name : string) (hasse : HDGraph)
    (lcv : list string) :
  k < length (hd_vertices hasse) ->
  lcv = characters (vertex_bundle hasse k) ->
  represents
    (update_vertex (fun p => {| species := species p ++ [v_name]; characters := characters p |})
                   k hasse) v_name lcv.
Proof.
  intros Hk ->. unfold represents, update_vertex, vertex_bundle. cbn [hd_vertices].
  destruct (lookup_lt_is_Some_2 _ _ Hk) as [hv Hhv].
  exists k, {| species := species hv ++ [v_name]; characters := characters hv |}.
  rewrite list_lookup_alter_eq, Hhv, (list_lookup_total_correct _ _ _ Hhv). cbn.
  split; [reflexivity|]. split; [reflexivity|]. apply elem_of_app. right. apply list_elem_of_here.
Qed.

Lemma represents_app (h h' : HDGraph) (l : list HDVertexProperties) (nm : string)
    (lcv : list string) :
  hd_vertices h' = hd_vertices h ++ l -> represents h nm lcv -> represents h' nm lcv.
Proof.
  intros Hv (k & hv & Hk & Hc & Hs). exists k, hv. rewrite Hv.
  split; [|auto]. rewrite lookup_app_l; [assumption|]. eapply lookup_lt_Some; eassumption.
Qed.

Lemma represents_new (h' : HDGraph) (vs : list HDVertexProperties) (nm : string)
    (lcv : list string) :
  hd_vertices h' = vs ++ [{| species := [nm]; characters := lcv |}] -> represents h' nm lcv.
Proof.
  intros Hv. exists (length vs), {| species := [nm]; characters := lcv |}. rewrite Hv.
  split; [apply list_lookup_middle; reflexivity|]. split; [reflexivity|apply list_elem_of_here].
Qed.

Lemma insert_species_vertices (i : nat) (v_name : string) (lcv : list string) (hasse : HDGraph) :
  i = 0 \/ hd_vertices hasse <> [] ->
  represents (insert_species i v_name lcv hasse) v_name lcv /\
  hd_vertices (insert_species i v_name lcv hasse) <> [] /\
  forall nm' lcv', represents hasse nm' lcv' ->
                   represents (insert_species i v_name lcv hasse) nm' lcv'.
Proof.
  intros Hi. destruct (Nat.eq_dec i 0) as [->|Hi0].
  - unfold insert_species. cbn [Nat.eqb]. rewrite add_vertex1_spec. cbn [snd].
    split; [eapply represents_new; reflexivity|]. split.
    + cbn. now destruct (hd_vertices hasse).
    + intros nm' lcv'. eapply represents_app. reflexivity.
  - destruct Hi as [|Hne]; [contradiction|].
    destruct (insert_species_cases i v_name lcv hasse Hi0 Hne)
      as [(k & Hk & Hlcv & ->)|(Hfresh & ->)].
    + split; [now apply represents_update_self|]. split.
      * unfold update_vertex. cbn [hd_vertices]. intros Hnil.
        apply (f_equal length) in Hnil. rewrite length_alter in Hnil.
        destruct (hd_vertices hasse); [congruence|discriminate].
      * intros nm' lcv'. apply represents_update_species.
    + destruct (add_new_edges_frame (length (hd_vertices hasse))
                  (vertices hasse ≫= (fun k => pair k <$> queued hasse lcv k))
                  (snd (add_vertex1 v_name lcv hasse))) as [Hv _].
      assert (Hv' : hd_vertices (snd (add_vertex1 v_name lcv hasse)) =
                    hd_vertices hasse ++ [{| species := [v_name]; characters := lcv |}])
        by (rewrite add_vertex1_spec; reflexivity).
      rewrite Hv' in Hv.
      split; [eapply represents_new; exact Hv|]. split.
      * rewrite Hv. now destruct (hd_vertices hasse).
      * intros nm' lcv'. eapply represents_app. exact Hv.
Qed.

Lemma build_pairs_represents (pairs : list (string * list string)) :
  forall i hasse,
    i = 0 \/ hd_vertices hasse <> [] ->
    (forall p, p ∈ pairs -> represents (build_pairs i pairs hasse) (fst p) (snd p)) /\
    (forall nm lcv, represents hasse nm lcv -> represents (build_pairs i pairs hasse) nm lcv).
Proof.
  induction pairs as [|p pairs IH]; intros i hasse Hi.
  - split; [intros p Hp; inversion Hp|auto].
  - cbn [build_pairs].
    destruct (insert_species_vertices i (fst p) (snd p) hasse Hi) as (Hself & Hne & Hpres).
    destruct (IH (S i) (insert_species i (fst p) (snd p) hasse)) as [IH1 IH2]; [now right|].
    split.
    + intros p' Hp'. apply elem_of_cons in Hp' as [->|Hp']; [now apply IH2|now apply IH1].
    + intros nm lcv Hr. now apply IH2, Hpres.
Qed.

(** In a graph whose out-edges iterate in ascending order and whose names
    are pairwise different, two vertices with the same set of adjacent names
    have the same list of adjacent names. *)
Lemma adjacent_names_canonical (g : RBGraph) (s1 s2 : RBVertex) :
  ordered_out_edges g -> distinct_names g ->
  s1 < length (m_vertices g) -> s2 < length (m_vertices g) ->
  (forall c, c ∈ adjacent_names g s1 <-> c ∈ adjacent_names g s2) ->
  adjacent_names g s1 = adjacent_names g s2.
Proof.
  intros Hord Hnames H1 H2 Hset.
  destruct (Hord s1 H1) as [Hs1 Hr1]. destruct (Hord s2 H2) as [Hs2 Hr2].
  unfold adjacent_names in *.
  assert (Hinj : forall a b, a < length (m_vertices g) -> b < length (m_vertices g) ->
                 name (bundle g a) = name (bundle g b) -> a = b).
  { intros a b Ha Hb Heq. unfold bundle in Heq.
    destruct (lookup_lt_is_Some_2 _ _ Ha) as [va Hva].
    destruct (lookup_lt_is_Some_2 _ _ Hb) as [vb Hvb].
    rewrite (list_lookup_total_correct _ _ _ Hva), (list_lookup_total_correct _ _ _ Hvb) in Heq.
    eapply (NoDup_lookup _ a b); [exact Hnames| |].
    - rewrite list_lookup_fmap, Hva. reflexivity.
    - rewrite list_lookup_fmap, Hvb. cbn. now rewrite Heq. }
  assert (Hsub : forall t1 t2 : list RBVertex,
            Forall (fun t => t < length (m_vertices g)) t1 ->
            Forall (fun t => t < length (m_vertices g)) t2 ->
            (forall c, c ∈ (fun cv => name (bundle g cv)) <$> t1 ->
                       c ∈ (fun cv => name (bundle g cv)) <$> t2) ->
            forall x, x ∈ t1 -> x ∈ t2).
  { intros t1 t2 Hf1 Hf2 Hin x Hx.
    assert (Hnx : name (bundle g x) ∈ (fun cv => name (bundle g cv)) <$> t2)
      by (apply Hin; now apply (list_elem_of_fmap_2 (fun cv => name (bundle g cv)))).
    apply list_elem_of_fmap in Hnx as (y & Hxy & Hy).
    rewrite Forall_forall in Hf1, Hf2.
    now rewrite (Hinj x y (Hf1 x Hx) (Hf2 y Hy) Hxy). }
  assert (Hnodup : forall t : list RBVertex, StronglySorted lt t -> NoDup t).
  { intros t Ht. induction Ht as [|a t Ht IH Hall]; [constructor|].
    apply NoDup_cons. split; [|assumption].
    intros Ha. rewrite Forall_forall in Hall. specialize (Hall a Ha). lia. }
  f_equal.
  assert (HA : AntiSymm eq lt) by (intros x y Hxy Hyx; lia).
  apply (StronglySorted_unique lt); [assumption|assumption|].
  apply NoDup_Permutation; [now apply Hnodup|now apply Hnodup|].
  intros x. split; apply Hsub; try assumption; intros c; apply Hset.
Qed.

Lemma species_of_lt (g : RBGraph) (v : RBVertex) :
  v ∈ species_of g -> v < length (m_vertices g).
Proof.
  unfold species_of, RBG.vertices. rewrite list_elem_of_filter, elem_of_seq. lia.
Qed.

(** Two species with the same list of adjacent names are listed by the same
    vertex of the diagram, the only one with these character names. *)
Lemma same_characters_same_vertex (g : RBGraph) (n : nat) (hasse : HDGraph) (s1 : RBVertex) :
  hasse_diagram (empty_diagram n) g = Some hasse ->
  s1 ∈ species_of g ->
  exists k hv,
    hd_vertices hasse !! k = Some hv /\
    characters hv = adjacent_names g s1 /\
    (forall s2, s2 ∈ species_of g -> adjacent_names g s2 = adjacent_names g s1 ->
                name (bundle g s2) ∈ species hv) /\
    (forall k' hv', hd_vertices hasse !! k' = Some hv' ->
                    characters hv' = adjacent_names g s1 -> k' = k).
Proof.
  intros Hh Hs1. apply hasse_diagram_Some in Hh as (sets & v_map & pairs & Hc & HF & ->).
  set (h1 := build_pairs 0 pairs (empty_diagram n)).
  destruct (reduce_vertices_sub (vertices h1) h1) as (Hv & _ & _). rewrite Hv.
  pose proof (closed_diagram_build_pairs_empty pairs n) as Hclosed. fold h1 in Hclosed.
  destruct (build_pairs_represents pairs 0 (empty_diagram n)) as [Hrep _]; [now left|].
  fold h1 in Hrep.
  assert (Huniq : forall k1 hv1 k2 hv2,
            hd_vertices h1 !! k1 = Some hv1 -> hd_vertices h1 !! k2 = Some hv2 ->
            characters hv1 = characters hv2 -> k1 = k2).
  { intros k1 hv1 k2 hv2 Hk1 Hk2 Heq.
    eapply (NoDup_lookup _ k1 k2); [exact (characters_nodup _ Hclosed)| |].
    - rewrite list_lookup_fmap, Hk1. reflexivity.
    - rewrite list_lookup_fmap, Hk2. cbn. now rewrite Heq. }
  destruct (Hrep _ (species_among_pairs g sets v_map pairs s1 Hc HF Hs1))
    as (k & hv & Hk & Hchars & _). cbn [fst snd] in Hchars.
  exists k, hv. split; [assumption|]. split; [assumption|]. split.
  - intros s2 Hs2 Heq.
    destruct (Hrep _ (species_among_pairs g sets v_map pairs s2 Hc HF Hs2))
      as (k2 & hv2 & Hk2 & Hchars2 & Hin2). cbn [fst snd] in Hchars2, Hin2.
    assert (k2 = k) by (eapply Huniq; [eassumption|eassumption|congruence]). subst k2.
    rewrite Hk in Hk2. injection Hk2 as <-. assumption.
  - intros k' hv' Hk' Hchars'. eapply Huniq; [eassumption|eassumption|congruence].
Qed.

(** C3: all the species with the same list of adjacent character names
    as the species [s1] (the names of the targets of the out-edges, in
    iteration order and with their repetitions, which is what the code
    compares) are listed by one vertex of the diagram, and no other vertex
    has these character names; every species is listed by the vertex that
    has its list, which is the vertex of [s1] exactly when the two lists are
    equal. For two species both adjacent to c1 and c2, in this order, the
    diagram is one vertex that lists both, and no edge. *)
Theorem equal_species_collapse :
  (forall (g : RBGraph) (n : nat) (hasse : HDGraph) (s1 : RBVertex),
     hasse_diagram (empty_diagram n) g = Some hasse ->
     s1 ∈ species_of g ->
     exists k hv,
       hd_vertices hasse !! k = Some hv /\
       characters hv = adjacent_names g s1 /\
       (forall s2, s2 ∈ species_of g ->
                   adjacent_names g s2 = adjacent_names g s1 ->
                   name (bundle g s2) ∈ species hv) /\
       (forall k' hv', hd_vertices hasse !! k' = Some hv' ->
                       characters hv' = adjacent_names g s1 -> k' = k) /\
       (forall s2, s2 ∈ species_of g ->
          exists k2 hv2,
            hd_vertices hasse !! k2 = Some hv2 /\
            characters hv2 = adjacent_names g s2 /\
            name (bundle g s2) ∈ species hv2 /\
            (k2 = k <-> adjacent_names g s2 = adjacent_names g s1))) /\
  hasse_diagram (empty_diagram 0) Fixtures.collapse_graph =
    Some {| hd_vertices := [{| species := ["s1"; "s2"]; characters := ["c1"; "c2"] |}];
            hd_edges := [];
            hd_property := {| g := None; gm := None; num_v := 0 |} |}.
Proof.
  split; [|reflexivity].
  intros g n hasse s1 Hh Hs1.
  destruct (same_characters_same_vertex g n hasse s1 Hh Hs1) as (k & hv & Hk & Hc & Hall & Hu).
  exists k, hv. split; [assumption|]. split; [assumption|]. split; [assumption|].
  split; [assumption|].
  intros s2 Hs2.
  destruct (same_characters_same_vertex g n hasse s2 Hh Hs2)
    as (k2 & hv2 & Hk2 & Hc2 & Hall2 & _).
  exists k2, hv2. split; [assumption|]. split; [assumption|].
  split; [now apply Hall2|]. split.
  - intros ->. rewrite Hk in Hk2. injection Hk2 as <-. congruence.
  - intros Heq. apply (Hu k2 hv2 Hk2). congruence.
Qed.

Lemma equal_species_collapse_witness :
  exists k hv,
    [{| species := ["s1"; "s2"]; characters := ["c1"; "c2"] |}] !! k = Some hv /\
    name (bundle Fixtures.collapse_graph 0) ∈ species hv /\
    name (bundle Fixtures.collapse_graph 1) ∈ species hv.
Proof.
  assert (Hs : forall v, v = 0 \/ v = 1 -> v ∈ species_of Fixtures.collapse_graph).
  { intros v [-> | ->]; compute_done. }
  destruct equal_species_collapse as [H _].
  destruct (H Fixtures.collapse_graph 0 _ 0 eq_refl (Hs 0 (or_introl eq_refl)))
    as (k & hv & Hk & _ & Hall & _).
  exists k, hv. split; [exact Hk|]. split.
  - apply Hall; [apply Hs; now left|reflexivity].
  - apply Hall; [apply Hs; now right|reflexivity].
Defined.

(** C3, as the specification words it, fails: s1 and s2 have the same set
    of adjacent character names, c1 alone, but s1 has two adjacent
    characters of that name; its list has two entries and that of s2 has
    one, the comparison with [==] tells them apart, and the diagram has two
    vertices, none of which lists both species. *)
Lemma same_set_counterexample :
  0 ∈ species_of Fixtures.repeated_name_graph /\
  1 ∈ species_of Fixtures.repeated_name_graph /\
  (forall c, c ∈ adjacent_names Fixtures.repeated_name_graph 0 <->
             c ∈ adjacent_names Fixtures.repeated_name_graph 1) /\
  hasse_diagram (empty_diagram 0) Fixtures.repeated_name_graph =
    Some {| hd_vertices := [{| species := ["s2"]; characters := ["c1"] |};
                            {| species := ["s1"]; characters := ["c1"; "c1"] |}];
            hd_edges := [];
            hd_property := {| g := None; gm := None; num_v := 0 |} |} /\
  ~ (exists hasse hv,
       hasse_diagram (empty_diagram 0) Fixtures.repeated_name_graph = Some hasse /\
       hv ∈ hd_vertices hasse /\
       name (bundle Fixtures.repeated_name_graph 0) ∈ species hv /\
       name (bundle Fixtures.repeated_name_graph 1) ∈ species hv).
Proof.
  assert (Hh : hasse_diagram (empty_diagram 0) Fixtures.repeated_name_graph =
    Some {| hd_vertices := [{| species := ["s2"]; characters := ["c1"] |};
                            {| species := ["s1"]; characters := ["c1"; "c1"] |}];
            hd_edges := [];
            hd_property := {| g := None; gm := None; num_v := 0 |} |}) by reflexivity.
  split; [compute_done|]. split; [compute_done|]. split; [|split; [exact Hh|]].
  - intros c. change (c ∈ ["c1"; "c1"] <-> c ∈ ["c1"]).
    rewrite !elem_of_cons, elem_of_nil. tauto.
  - intros (hasse & hv & Hh' & Hin & H0 & H1). rewrite Hh in Hh'. injection Hh' as <-.
    cbn [hd_vertices] in Hin.
    change (name (bundle Fixtures.repeated_name_graph 0)) with "s1" in H0.
    change (name (bundle Fixtures.repeated_name_graph 1)) with "s2" in H1.
    apply elem_of_cons in Hin as [->|Hin].
    + cbn [species] in H0. apply list_elem_of_singleton in H0. discriminate.
    + apply list_elem_of_singleton in Hin. subst hv. cbn [species] in H1.
      apply list_elem_of_singleton in H1. discriminate.
Qed.

(** *** [hasse_diagram] returns a diagram exactly when the counter of the
    graph bundle is right *)

Lemma build_is_Some (g : RBGraph) (v_map : gmap RBVertex (list RBVertex))
    (sets : list (list RBVertex)) :
  Forall (fun s => s <> []) sets ->
  forall i hasse, is_Some (build g v_map i sets hasse).
Proof.
  induction 1 as [|s sets Hs Hall IH]; intros i hasse; cbn [build]; [eauto|].
  destruct s as [|v s]; [congruence|]. cbn. apply IH.
Qed.

(** X19: the loops of [hasse_diagram] stay inside [sets], which is created
    with [num_species(g)] entries, and never take [front()] of an empty
    entry, exactly when that counter is the number of species vertices of
    [g]; this holds for any diagram that [hasse] is on entry. *)
Theorem hasse_diagram_defined (hasse : HDGraph) (g : RBGraph) :
  is_Some (hasse_diagram hasse g) <-> species_counted g.
Proof.
  unfold species_counted. split.
  - intros [result Hr]. apply hasse_diagram_Some in Hr as (sets & v_map & pairs & Hc & HF & _).
    apply collect_species_Some in Hc as (Hle & -> & _).
    destruct (num_species g - length (species_of g)) as [|d] eqn:Hd; [lia|]. exfalso.
    assert (Hin : [] ∈ std_sort ascending_size
              ((species_set g <$> species_of g) ++ replicate (S d) ([] : list RBVertex))).
    { apply std_sort_elem, elem_of_app. right. apply list_elem_of_here. }
    apply list_elem_of_lookup in Hin as [i Hi].
    destruct (Forall2_lookup_l _ _ _ _ _ HF Hi) as (p & _ & Hp). discriminate.
  - intros Heq. unfold hasse_diagram.
    destruct (collect_species_spec g (RBG.vertices g) [] (num_species g) ∅) as [H1 _].
    { apply NoDup_seq. }
    { intros v _. rewrite lookup_total_alt, lookup_empty. reflexivity. }
    cbn [app length] in H1. fold (species_of g) in H1.
    destruct H1 as (v_map & Hc & _); [lia|]. rewrite Hc. cbn.
    destruct (build_is_Some g v_map
                (std_sort ascending_size
                   ((species_set g <$> species_of g) ++
                    replicate (num_species g - length (species_of g)) [])) ) with (i := 0) (hasse := hasse)
      as [h1 Hb].
    + apply Forall_forall. intros s Hs. apply std_sort_elem in Hs.
      rewrite Heq, Nat.sub_diag in Hs. cbn [replicate] in Hs. rewrite app_nil_r in Hs.
      apply list_elem_of_fmap in Hs as (v & -> & _). discriminate.
    + rewrite Hb. cbn. eauto.
Qed.

(** *** Any arrangement of the species *)

(** [std::sort] may leave species with as many characters in any order.
    Whatever list the loop over [sets] is run on, the diagram after the
    closing loop is acyclic and transitively reduced, and its edges are
    labelled by the names that the target has and the source lacks. *)
Lemma any_arrangement_reduced (g : RBGraph) (v_map : gmap RBVertex (list RBVertex))
    (sets : list (list RBVertex)) (n : nat) (hasse1 : HDGraph) :
  build g v_map 0 sets (empty_diagram n) = Some hasse1 ->
  let hasse := reduce_vertices (vertices hasse1) hasse1 in
  acyclic hasse /\
  transitively_reduced hasse /\
  (forall u v l, labelled_edge hasse u v l ->
     strictly_included (characters (vertex_bundle hasse u))
                       (characters (vertex_bundle hasse v)) = true /\
     l = gained (missing (characters (vertex_bundle hasse u))
                         (characters (vertex_bundle hasse v)))).
Proof.
  intros Hb. apply build_Some in Hb as (pairs & _ & ->).
  destruct (reduced_diagram _ (closed_diagram_build_pairs_empty pairs n)) as (Ha & Ht & _ & Hl).
  auto.
Qed.

(** The graph of the two-row matrix is as a graph library builds it: the
    out-edges ascend, the names differ, and the counter of species is
    right. *)
Lemma unsorted_graph_well_formed :
  ordered_out_edges Fixtures.unsorted_graph /\
  distinct_names Fixtures.unsorted_graph /\
  species_counted Fixtures.unsorted_graph.
Proof.
  split; [|split; [unfold distinct_names; compute_done|reflexivity]].
  intros v Hv. simpl in Hv.
  do 12 (destruct v as [|v]; [split; repeat constructor; lia|]). lia.
Qed.

(** ** Part III. Further properties of the code *)

Import Queries.

(** *** The closing loop keeps every vertex reachable *)

Lemma reduce_out_edges_removed (ie : HDEdge) (oes : list HDEdge) (hasse : HDGraph)
    (a b : HDVertex) :
  has_edge hasse a b ->
  ~ has_edge (reduce_out_edges ie oes hasse) a b ->
  a = source ie /\ exists oe, oe ∈ oes /\ b = target oe.
Proof.
  intros Hab Hno. unfold has_edge in Hab.
  apply list_elem_of_fmap in Hab as ([e p] & He & Hin). simpl in He. subst e.
  destruct (reduce_out_edges_spec ie oes hasse) as (_ & _ & Hx).
  assert (Hex : Exists (fun oe => ~ (a, b) <> (source ie, target oe)) oes).
  { apply not_Forall_Exists; [intros oe; apply _|]. intros Hall.
    apply Hno. unfold has_edge. apply list_elem_of_fmap. exists ((a, b), p).
    split; [reflexivity|]. apply Hx. split; [assumption|].
    intros oe Hoe. rewrite Forall_forall in Hall. now apply Hall. }
  apply Exists_exists in Hex as (oe & Hoe & Heq).
  destruct (decide ((a, b) = (source ie, target oe))) as [[= -> ->]|Hne]; [|contradiction].
  split; [reflexivity|]. now exists oe.
Qed.

Lemma reduce_in_edges_removed (u : HDVertex) (ies : list HDEdge) :
  forall hasse a b,
    has_edge hasse a b ->
    ~ has_edge (reduce_in_edges u ies hasse) a b ->
    (exists ie, ie ∈ ies /\ a = source ie) /\ has_edge hasse u b.
Proof.
  induction ies as [|ie ies IH]; intros hasse a b Hab Hno; cbn [reduce_in_edges] in Hno.
  - contradiction.
  - set (h1 := reduce_out_edges ie (out_edges u hasse) hasse) in *.
    destruct (decide ((a, b) ∈ fst <$> hd_edges h1)) as [Hyes|Hnot].
    + destruct (IH h1 a b Hyes Hno) as [(ie' & Hie' & Ha) Hub]. split.
      * exists ie'. split; [now apply list_elem_of_further|assumption].
      * eapply removes_only_has_edge; [apply reduce_out_edges_removes_only|exact Hub].
    + destruct (reduce_out_edges_removed ie (out_edges u hasse) hasse a b Hab Hnot)
        as (Ha & oe & Hoe & Hb).
      split; [exists ie; split; [apply list_elem_of_here|assumption]|].
      unfold out_edges in Hoe. apply list_elem_of_filter in Hoe as [Hsrc Hoe].
      destruct oe as [x y]. unfold source, target in *. simpl in *. now subst.
Qed.

(** The loop body removes an edge from [a] to [b] only when [u] has an edge
    from [a] and an edge to [b]. *)
Lemma reduce_vertex_removed (u : HDVertex) (hasse : HDGraph) (a b : HDVertex) :
  has_edge hasse a b ->
  ~ has_edge (reduce_vertex u hasse) a b ->
  has_edge hasse a u /\ has_edge hasse u b.
Proof.
  intros Hab Hno. unfold reduce_vertex in Hno. destruct (_ || _); [contradiction|].
  destruct (reduce_in_edges_removed u _ hasse a b Hab Hno) as [(ie & Hie & Ha) Hub].
  split; [|assumption].
  unfold in_edges in Hie. apply list_elem_of_filter in Hie as [Htgt Hie].
  destruct ie as [x y]. unfold source, target in *. simpl in *. now subst.
Qed.

Lemma reduce_vertices_keeps_target (us : list HDVertex) (a b : HDVertex) :
  forall hasse,
    (forall u, u ∈ us -> ~ has_edge hasse u b) ->
    has_edge hasse a b ->
    has_edge (reduce_vertices us hasse) a b.
Proof.
  induction us as [|u us IH]; intros hasse Hno Hab; cbn [reduce_vertices]; [assumption|].
  apply IH.
  - intros u' Hu' Hhas. apply (Hno u'); [now apply list_elem_of_further|].
    eapply removes_only_has_edge; [apply reduce_vertex_removes_only|exact Hhas].
  - destruct (decide ((a, b) ∈ fst <$> hd_edges (reduce_vertex u hasse))) as [Hyes|Hnot];
      [exact Hyes|].
    destruct (reduce_vertex_removed u hasse a b Hab Hnot) as [_ Hub].
    exfalso. apply (Hno u); [apply list_elem_of_here|exact Hub].
Qed.

(** An edge that the closing loop removes is removed at a vertex that, at
    that moment, has an edge from its source and an edge to its target. *)
Lemma reduce_vertices_removed (us : list HDVertex) :
  forall hasse a b,
    has_edge hasse a b ->
    ~ has_edge (reduce_vertices us hasse) a b ->
    exists pre x post,
      us = pre ++ x :: post /\
      has_edge (reduce_vertices pre hasse) a x /\
      has_edge (reduce_vertices pre hasse) x b.
Proof.
  induction us as [|u us IH]; intros hasse a b Hab Hno; cbn [reduce_vertices] in Hno.
  - contradiction.
  - destruct (decide ((a, b) ∈ fst <$> hd_edges (reduce_vertex u hasse))) as [Hyes|Hnot].
    + destruct (IH _ a b Hyes Hno) as (pre & x & post & -> & Hax & Hxb).
      exists (u :: pre), x, post. auto.
    + destruct (reduce_vertex_removed u hasse a b Hab Hnot) as [Hau Hub].
      exists [], u, us. auto.
Qed.

Lemma seq_split (pre : list nat) (x : nat) (post : list nat) :
  forall a n, seq a n = pre ++ x :: post ->
              (forall u, u ∈ pre -> u < x) /\ (forall u, u ∈ post -> x < u).
Proof.
  induction pre as [|p pre IH]; intros a n Heq.
  - destruct n as [|n]; [discriminate|]. cbn in Heq. injection Heq as <- <-.
    split; [intros u Hu; inversion Hu|]. intros u Hu. apply elem_of_seq in Hu. lia.
  - destruct n as [|n]; [discriminate|]. cbn in Heq. injection Heq as <- Heq.
    destruct (IH _ _ Heq) as [H1 H2]. split; [|assumption].
    intros u Hu. apply elem_of_cons in Hu as [->|Hu]; [|auto].
    assert (Hx : x ∈ seq (S a) n) by (rewrite Heq; apply elem_of_app; right; apply list_elem_of_here).
    apply elem_of_seq in Hx. lia.
Qed.

(** On a diagram whose edges lead from a vertex to a later one, the closing
    loop leaves a path wherever there was an edge. *)
Lemma reduce_vertices_reachable (hasse : HDGraph) :
  (forall a b, has_edge hasse a b -> a < b /\ b < length (hd_vertices hasse)) ->
  forall d a b, b - a <= d -> has_edge hasse a b ->
                reachable (reduce_vertices (vertices hasse) hasse) a b.
Proof.
  intros Hfwd. induction d as [|d IH]; intros a b Hd Hab.
  - apply Hfwd in Hab. lia.
  - destruct (decide ((a, b) ∈ fst <$> hd_edges (reduce_vertices (vertices hasse) hasse)))
      as [Hyes|Hnot]; [exists 1; now apply path_edge|].
    destruct (reduce_vertices_removed _ hasse a b Hab Hnot) as (pre & x & post & Hsplit & Hax & Hxb).
    destruct (seq_split pre x post _ _ Hsplit) as [_ Hpost].
    pose proof (reduce_vertices_has_edge pre hasse a x Hax) as Hax0.
    pose proof (reduce_vertices_has_edge pre hasse x b Hxb) as Hxb0.
    pose proof (Hfwd _ _ Hax0) as Hlt1. pose proof (Hfwd _ _ Hxb0) as Hlt2.
    destruct (IH x b) as [m Hm]; [lia|assumption|].
    exists (S m). apply path_step with (w := x); [|exact Hm].
    rewrite Hsplit, reduce_vertices_app.
    apply reduce_vertices_keeps_target; [|exact Hax].
    intros u Hu Hhas. apply reduce_vertices_has_edge, Hfwd in Hhas.
    apply elem_of_cons in Hu as [->|Hu]; [lia|]. apply Hpost in Hu. lia.
Qed.

(** X1: in the diagram that [hasse_diagram] returns there is a path from a
    vertex [u] to a vertex [v] exactly when [u] was created before [v] and
    the character names of [u] are strictly included in those of [v]: the
    closing loop removes edges, never reachability. *)
Theorem hasse_diagram_reachable (g : RBGraph) (n : nat) (hasse : HDGraph) (u v : HDVertex) :
  hasse_diagram (empty_diagram n) g = Some hasse ->
  reachable hasse u v <->
  u < v /\ v < length (hd_vertices hasse) /\
  strictly_included (characters (vertex_bundle hasse u))
                    (characters (vertex_bundle hasse v)) = true.
Proof.
  intros Hh. apply hasse_diagram_Some in Hh as (sets & v_map & pairs & _ & _ & ->).
  set (h1 := build_pairs 0 pairs (empty_diagram n)).
  pose proof (closed_diagram_build_pairs_empty pairs n) as Hc. fold h1 in Hc.
  destruct (reduce_vertices_sub (vertices h1) h1) as (Hv & _ & _).
  unfold vertex_bundle. rewrite Hv. fold (vertex_bundle h1 u) (vertex_bundle h1 v).
  assert (Hfwd : forall a b, has_edge h1 a b -> a < b /\ b < length (hd_vertices h1)).
  { intros a b Hab. destruct (closed_diagram_has_edge _ _ _ Hc Hab) as (? & ? & _). now split. }
  split.
  - intros [m Hp]. apply (path_sub h1) in Hp; [|apply reduce_vertices_has_edge].
    exact (closed_diagram_path _ _ _ _ Hc Hp).
  - intros (Huv & Hlen & Hs).
    apply (reduce_vertices_reachable h1 Hfwd (v - u)); [lia|].
    now apply (edges_complete _ Hc).
Qed.

Lemma hasse_diagram_reachable_witness :
  exists hasse,
    hasse_diagram (empty_diagram 0) Fixtures.chain_graph = Some hasse /\
    ~ has_edge hasse 0 2 /\ reachable hasse 0 2.
Proof.
  eexists. split; [vm_compute; reflexivity|]. split.
  - unfold has_edge. intros H. apply list_elem_of_In in H. vm_compute in H.
    destruct H as [H|[H|H]]; [discriminate|discriminate|exact H].
  - apply (hasse_diagram_reachable Fixtures.chain_graph 0 _ 0 2 eq_refl).
    split; [lia|]. split; [vm_compute; lia|reflexivity].
Defined.

(** *** What one species does to the vertex list *)

Lemma scan_vertices_property (v_name : string) (lcv : list string) (hasse : HDGraph)
    (hdvs : list HDVertex) :
  forall new_edges,
    hd_property (scan_vertices v_name lcv hdvs new_edges hasse) = hd_property hasse.
Proof.
  induction hdvs as [|hdv rest IH]; intros new_edges; cbn [scan_vertices]; [reflexivity|].
  case_bool_decide; [reflexivity|]. destruct rest as [|hdv' rest'].
  - rewrite add_vertex1_spec. now rewrite (proj2 (add_new_edges_frame _ _ _)).
  - apply IH.
Qed.

(** The loop body for one species leaves the graph bundle alone, and either
    leaves the vertex list (it is empty and the species is not the first),
    or adds the species name to the vertex that has its character names, or
    appends a vertex for it. *)
Lemma insert_species_step (i : nat) (v_name : string) (lcv : list string) (hasse : HDGraph) :
  hd_property (insert_species i v_name lcv hasse) = hd_property hasse /\
  ((i <> 0 /\ hd_vertices hasse = [] /\ hd_vertices (insert_species i v_name lcv hasse) = []) \/
   (exists k, k < length (hd_vertices hasse) /\
              lcv = characters (vertex_bundle hasse k) /\
              hd_vertices (insert_species i v_name lcv hasse) =
                alter (fun p => {| species := species p ++ [v_name];
                                   characters := characters p |}) k (hd_vertices hasse)) \/
   hd_vertices (insert_species i v_name lcv hasse) =
     hd_vertices hasse ++ [{| species := [v_name]; characters := lcv |}]).
Proof.
  split.
  - unfold insert_species. destruct (i =? 0).
    + now rewrite add_vertex1_spec.
    + apply scan_vertices_property.
  - destruct (Nat.eq_dec i 0) as [->|Hi].
    + right. right. unfold insert_species. cbn [Nat.eqb]. now rewrite add_vertex1_spec.
    + destruct (hd_vertices hasse) as [|p vs] eqn:Hvs.
      * left. unfold insert_species. destruct (Nat.eqb_spec i 0); [contradiction|].
        unfold vertices. rewrite Hvs. cbn. auto.
      * rewrite <- Hvs.
        destruct (insert_species_cases i v_name lcv hasse Hi) as [(k & Hk & Hl & ->)|(_ & ->)];
          [congruence| |].
        -- right. left. exists k. auto.
        -- right. right. rewrite (proj1 (add_new_edges_frame _ _ _)).
           now rewrite add_vertex1_spec.
Qed.

Lemma alter_species_characters (k : nat) (v_name : string) (vs : list HDVertexProperties) :
  characters <$> alter (fun p => {| species := species p ++ [v_name];
                                    characters := characters p |}) k vs
  = characters <$> vs.
Proof.
  rewrite (list_fmap_alter characters _ id) by (apply Forall_forall; reflexivity).
  now rewrite list_alter_id.
Qed.

Lemma alter_species_listed (v_name : string) (vs : list HDVertexProperties) :
  forall k, k < length vs ->
    concat (species <$> alter (fun p => {| species := species p ++ [v_name];
                                           characters := characters p |}) k vs)
    ≡ₚ concat (species <$> vs) ++ [v_name].
Proof.
  induction vs as [|p vs IH]; intros k Hk; [simpl in Hk; lia|].
  destruct k as [|k]; cbn.
  - rewrite <- !app_assoc. apply Permutation_app_head, Permutation_app_comm.
  - rewrite <- app_assoc. apply Permutation_app_head, IH. simpl in Hk. lia.
Qed.

Lemma insert_species_listed (i : nat) (v_name : string) (lcv : list string) (hasse : HDGraph) :
  i = 0 \/ hd_vertices hasse <> [] ->
  listed_species (insert_species i v_name lcv hasse) ≡ₚ listed_species hasse ++ [v_name].
Proof.
  intros Hi. unfold listed_species.
  destruct (insert_species_step i v_name lcv hasse) as [_ [(Hi0 & Hnil & _)|[(k & Hk & _ & ->)| ->]]].
  - destruct Hi; contradiction.
  - now apply alter_species_listed.
  - rewrite fmap_app, concat_app. reflexivity.
Qed.

Lemma insert_species_characters (i : nat) (v_name : string) (lcv : list string)
    (hasse : HDGraph) :
  characters <$> hd_vertices (insert_species i v_name lcv hasse) = characters <$> hd_vertices hasse \/
  characters <$> hd_vertices (insert_species i v_name lcv hasse) =
    (characters <$> hd_vertices hasse) ++ [lcv].
Proof.
  destruct (insert_species_step i v_name lcv hasse) as [_ [(_ & Hnil & ->)|[(k & _ & _ & ->)| ->]]].
  - left. now rewrite Hnil.
  - left. apply alter_species_characters.
  - right. now rewrite fmap_app.
Qed.

(** *** What the loop over [sets] does to the vertex list *)

Lemma build_pairs_property (pairs : list (string * list string)) :
  forall i hasse, hd_property (build_pairs i pairs hasse) = hd_property hasse.
Proof.
  induction pairs as [|p pairs IH]; intros i hasse; cbn [build_pairs]; [reflexivity|].
  rewrite IH. apply insert_species_step.
Qed.

Lemma insert_species_nonempty (i : nat) (v_name : string) (lcv : list string) (hasse : HDGraph) :
  i = 0 \/ hd_vertices hasse <> [] -> hd_vertices (insert_species i v_name lcv hasse) <> [].
Proof. intros Hi. now apply insert_species_vertices. Qed.

Lemma build_pairs_listed (pairs : list (string * list string)) :
  forall i hasse,
    i = 0 \/ hd_vertices hasse <> [] ->
    listed_species (build_pairs i pairs hasse) ≡ₚ listed_species hasse ++ (fst <$> pairs).
Proof.
  induction pairs as [|p pairs IH]; intros i hasse Hi; cbn [build_pairs].
  - cbn. now rewrite app_nil_r.
  - rewrite IH by (right; now apply insert_species_nonempty).
    rewrite insert_species_listed by assumption.
    rewrite fmap_cons, <- app_assoc. reflexivity.
Qed.

Lemma build_pairs_characters (pairs : list (string * list string)) :
  forall i hasse l,
    l ∈ characters <$> hd_vertices (build_pairs i pairs hasse) ->
    l ∈ characters <$> hd_vertices hasse \/ l ∈ snd <$> pairs.
Proof.
  induction pairs as [|p pairs IH]; intros i hasse l Hl; cbn [build_pairs] in Hl; [now left|].
  apply IH in Hl as [Hl|Hl].
  - destruct (insert_species_characters i (fst p) (snd p) hasse) as [Heq|Heq];
      rewrite Heq in Hl; [now left|].
    apply elem_of_app in Hl as [Hl|Hl]; [now left|].
    apply list_elem_of_singleton in Hl. right. rewrite fmap_cons, Hl. apply list_elem_of_here.
  - right. rewrite fmap_cons. now apply list_elem_of_further.
Qed.

(** Run on species in ascending order of their number of characters, the
    loop creates the vertices in that order. *)
Lemma build_pairs_ascending (pairs : list (string * list string)) :
  forall i hasse,
    StronglySorted (fun p q : string * list string => length (snd p) <= length (snd q)) pairs ->
    ascending_characters hasse ->
    (forall l p, l ∈ characters <$> hd_vertices hasse -> p ∈ pairs ->
                 length l <= length (snd p)) ->
    ascending_characters (build_pairs i pairs hasse).
Proof.
  induction pairs as [|p pairs IH]; intros i hasse Hs Ha Hle; cbn [build_pairs]; [assumption|].
  apply StronglySorted_cons in Hs as [Hp Hs]. rewrite Forall_forall in Hp.
  unfold ascending_characters in *.
  destruct (insert_species_characters i (fst p) (snd p) hasse) as [Heq|Heq].
  - apply IH; [assumption|now rewrite Heq|].
    intros l q Hl Hq. rewrite Heq in Hl. apply Hle; [assumption|now apply list_elem_of_further].
  - apply IH; [assumption| |].
    + rewrite Heq. apply StronglySorted_app. split; [|split; [assumption|repeat constructor]].
      intros l1 l2 H1 H2. apply list_elem_of_singleton in H2. subst l2.
      apply Hle; [assumption|apply list_elem_of_here].
    + intros l q Hl Hq. rewrite Heq in Hl. apply elem_of_app in Hl as [Hl|Hl].
      * apply Hle; [assumption|now apply list_elem_of_further].
      * apply list_elem_of_singleton in Hl. subst l. now apply Hp.
Qed.

(** *** Sorting the species *)

Lemma sort_insert_Permutation {A} (comp : A -> A -> bool) (x : A) (l : list A) :
  sort_insert comp x l ≡ₚ x :: l.
Proof.
  induction l as [|y l IH]; cbn [sort_insert]; [reflexivity|].
  destruct (comp y x); [|reflexivity]. rewrite IH. apply Permutation_swap.
Qed.

Lemma std_sort_Permutation {A} (comp : A -> A -> bool) (l : list A) :
  std_sort comp l ≡ₚ l.
Proof.
  induction l as [|x l IH]; cbn [std_sort]; [reflexivity|].
  rewrite sort_insert_Permutation. now rewrite IH.
Qed.

Lemma sort_insert_sorted {A} (key : A -> nat) (x : A) (l : list A) :
  StronglySorted (fun a b => key a <= key b) l ->
  StronglySorted (fun a b => key a <= key b) (sort_insert (fun a b => key a <? key b) x l).
Proof.
  induction 1 as [|y l Hs IH Hy]; cbn [sort_insert]; [repeat constructor|].
  destruct (Nat.ltb_spec (key y) (key x)) as [Hlt|Hge].
  - constructor; [assumption|]. apply Forall_forall. intros z Hz.
    apply sort_insert_elem in Hz as [->|Hz]; [lia|].
    rewrite Forall_forall in Hy. now apply Hy.
  - constructor; [now constructor|]. constructor; [assumption|].
    apply Forall_forall. intros z Hz. rewrite Forall_forall in Hy. specialize (Hy z Hz). lia.
Qed.

Lemma std_sort_sorted {A} (key : A -> nat) (l : list A) :
  StronglySorted (fun a b => key a <= key b) (std_sort (fun a b => key a <? key b) l).
Proof.
  induction l as [|x l IH]; cbn [std_sort]; [constructor|]. now apply sort_insert_sorted.
Qed.

Lemma sort_insert_fmap {A B} (f : A -> B) (comp : B -> B -> bool) (x : A) (l : list A) :
  sort_insert comp (f x) (f <$> l) = f <$> sort_insert (fun a b => comp (f a) (f b)) x l.
Proof.
  induction l as [|y l IH]; cbn [sort_insert fmap list_fmap]; [reflexivity|].
  destruct (comp (f y) (f x)); [|reflexivity]. cbn. f_equal. apply IH.
Qed.

Lemma std_sort_fmap {A B} (f : A -> B) (comp : B -> B -> bool) (l : list A) :
  std_sort comp (f <$> l) = f <$> std_sort (fun a b => comp (f a) (f b)) l.
Proof.
  induction l as [|x l IH]; cbn [std_sort fmap list_fmap]; [reflexivity|].
  rewrite IH. apply sort_insert_fmap.
Qed.

Lemma StronglySorted_weaken {A} (R1 R2 : A -> A -> Prop) (l : list A) :
  (forall a b, R1 a b -> R2 a b) -> StronglySorted R1 l -> StronglySorted R2 l.
Proof.
  intros Hw. induction 1 as [|x l Hs IH Hx]; constructor; [assumption|].
  eapply Forall_impl; [exact Hx|]. auto.
Qed.

(** The pairs that the loop over [sets] works on: the species of [g] in
    ascending order of their number of out-edges, each with its name and the
    names of its adjacent vertices. *)
Lemma sorted_pairs (g : RBGraph) (sets : list (list RBVertex))
    (v_map : gmap RBVertex (list RBVertex)) (pairs : list (string * list string)) :
  collect_species g (RBG.vertices g) 0 (replicate (num_species g) []) ∅ = Some (sets, v_map) ->
  Forall2 (fun s p => species_pair g v_map s = Some p) (std_sort ascending_size sets) pairs ->
  exists vs,
    vs ≡ₚ species_of g /\
    StronglySorted (fun a b => length (out_targets a g) <= length (out_targets b g)) vs /\
    pairs = (fun v => (name (bundle g v), adjacent_names g v)) <$> vs.
Proof.
  intros Hc HF. apply collect_species_Some in Hc as (Hle & -> & Hmap).
  destruct (num_species g - length (species_of g)) as [|d] eqn:Hd.
  2:{ exfalso.
      assert (Hin : [] ∈ std_sort ascending_size
                ((species_set g <$> species_of g) ++ replicate (S d) ([] : list RBVertex))).
      { apply std_sort_elem, elem_of_app. right. apply list_elem_of_here. }
      apply list_elem_of_lookup in Hin as [i Hi].
      destruct (Forall2_lookup_l _ _ _ _ _ HF Hi) as (p & _ & Hp). discriminate. }
  cbn [replicate] in HF. rewrite app_nil_r, std_sort_fmap in HF.
  set (vs := std_sort (fun a b => ascending_size (species_set g a) (species_set g b))
                      (species_of g)) in *.
  exists vs. split; [apply std_sort_Permutation|]. split.
  - subst vs. unfold ascending_size, species_set. cbn [length].
    eapply StronglySorted_weaken;
      [|apply (std_sort_sorted (fun v => S (length (out_targets v g))))].
    intros a b Hab. simpl in Hab. lia.
  - assert (Hvs : forall v, v ∈ vs -> v_map !!! v = out_targets v g).
    { intros v Hv. apply Hmap. subst vs. now apply std_sort_elem in Hv. }
    clearbody vs. clear Hmap Hle Hd. revert pairs HF.
    induction vs as [|v vs IH]; intros pairs HF.
    + inversion HF. reflexivity.
    + rewrite fmap_cons in HF. inversion HF as [|s p ss ps Hp HF']; subst.
      unfold species_pair, species_set in Hp. cbn [head] in Hp.
      rewrite (Hvs v) in Hp by apply list_elem_of_here. injection Hp as <-.
      rewrite fmap_cons. f_equal. apply IH; [|assumption].
      intros v' Hv'. apply Hvs. now apply list_elem_of_further.
Qed.

(** *** The vertices of the diagram that [hasse_diagram] returns *)

(** X2: the species names that the vertices list are the names of the
    species of [g], each as often as [g] has a species of that name: no
    species is left out and none is listed twice. *)
Theorem hasse_diagram_lists_every_species (g : RBGraph) (n : nat) (hasse : HDGraph) :
  hasse_diagram (empty_diagram n) g = Some hasse ->
  listed_species hasse ≡ₚ (fun v => name (bundle g v)) <$> species_of g.
Proof.
  intros Hh. apply hasse_diagram_Some in Hh as (sets & v_map & pairs & Hc & HF & ->).
  destruct (sorted_pairs g sets v_map pairs Hc HF) as (vs & Hperm & _ & ->).
  unfold listed_species. rewrite (proj1 (reduce_vertices_sub _ _)).
  fold (listed_species (build_pairs 0 ((fun v => (name (bundle g v), adjacent_names g v)) <$> vs)
                                    (empty_diagram n))).
  rewrite build_pairs_listed by now left. cbn [listed_species empty_diagram hd_vertices fmap
    list_fmap concat app].
  rewrite <- list_fmap_compose. rewrite <- Hperm. reflexivity.
Qed.

Lemma hasse_diagram_lists_every_species_witness :
  exists hasse,
    hasse_diagram (empty_diagram 0) Fixtures.collapse_graph = Some hasse /\
    listed_species hasse ≡ₚ ["s1"; "s2"].
Proof.
  eexists. split; [vm_compute; reflexivity|].
  exact (hasse_diagram_lists_every_species Fixtures.collapse_graph 0 _ eq_refl).
Defined.

(** X3: the character lists of the vertices are pairwise different, they
    are exactly the lists of adjacent names of the species of [g], and there
    are at most as many vertices as species. *)
Theorem hasse_diagram_vertices (g : RBGraph) (n : nat) (hasse : HDGraph) :
  hasse_diagram (empty_diagram n) g = Some hasse ->
  NoDup (characters <$> hd_vertices hasse) /\
  (forall l, l ∈ characters <$> hd_vertices hasse <->
             exists s, s ∈ species_of g /\ l = adjacent_names g s) /\
  length (hd_vertices hasse) <= length (species_of g).
Proof.
  intros Hh. apply hasse_diagram_Some in Hh as (sets & v_map & pairs & Hc & HF & ->).
  destruct (sorted_pairs g sets v_map pairs Hc HF) as (vs & Hperm & _ & Hpairs).
  rewrite (proj1 (reduce_vertices_sub _ _)).
  set (h1 := build_pairs 0 pairs (empty_diagram n)).
  pose proof (closed_diagram_build_pairs_empty pairs n) as Hclosed. fold h1 in Hclosed.
  assert (Hiff : forall l, l ∈ characters <$> hd_vertices h1 <->
                           exists s, s ∈ species_of g /\ l = adjacent_names g s).
  { intros l. split.
    - intros Hl. apply build_pairs_characters in Hl as [Hl|Hl]; [inversion Hl|].
      rewrite Hpairs, <- list_fmap_compose in Hl.
      apply list_elem_of_fmap in Hl as (s & -> & Hs). exists s.
      split; [now rewrite <- Hperm|reflexivity].
    - intros (s & Hs & ->).
      destruct (build_pairs_represents pairs 0 (empty_diagram n)) as [Hrep _]; [now left|].
      destruct (Hrep (name (bundle g s), adjacent_names g s)) as (k & hv & Hk & Hchars & _).
      { rewrite Hpairs. apply (list_elem_of_fmap_2 (fun v => (name (bundle g v), adjacent_names g v))).
        now rewrite Hperm. }
      cbn [snd] in Hchars. rewrite <- Hchars.
      apply list_elem_of_fmap_2. eapply list_elem_of_lookup_2. exact Hk. }
  split; [exact (characters_nodup _ Hclosed)|]. split; [exact Hiff|].
  rewrite <- (length_fmap characters), <- (length_fmap (adjacent_names g) (species_of g)).
  apply submseteq_length, NoDup_submseteq; [exact (characters_nodup _ Hclosed)|].
  intros l Hl. apply Hiff in Hl as (s & Hs & ->). now apply list_elem_of_fmap_2.
Qed.

Lemma hasse_diagram_vertices_witness :
  exists hasse,
    hasse_diagram (empty_diagram 0) Fixtures.collapse_graph = Some hasse /\
    length (hd_vertices hasse) <= 2.
Proof.
  eexists. split; [vm_compute; reflexivity|].
  exact (proj2 (proj2 (hasse_diagram_vertices Fixtures.collapse_graph 0 _ eq_refl))).
Defined.

(** X4: the vertices come in ascending order of their number of character
    names. *)
Theorem hasse_diagram_ascending (g : RBGraph) (n : nat) (hasse : HDGraph) :
  hasse_diagram (empty_diagram n) g = Some hasse ->
  ascending_characters hasse.
Proof.
  intros Hh. apply hasse_diagram_Some in Hh as (sets & v_map & pairs & Hc & HF & ->).
  destruct (sorted_pairs g sets v_map pairs Hc HF) as (vs & _ & Hsorted & ->).
  unfold ascending_characters. rewrite (proj1 (reduce_vertices_sub _ _)).
  apply build_pairs_ascending.
  - eapply StronglySorted_fmap; [|exact Hsorted].
    intros a b Hab. cbn [snd]. unfold adjacent_names. now rewrite !length_fmap.
  - constructor.
  - intros l p Hl. inversion Hl.
Qed.

Lemma hasse_diagram_ascending_witness :
  exists hasse,
    hasse_diagram (empty_diagram 0) Fixtures.chain_graph = Some hasse /\
    ascending_characters hasse.
Proof.
  eexists. split; [vm_compute; reflexivity|].
  exact (hasse_diagram_ascending Fixtures.chain_graph 0 _ eq_refl).
Defined.

(** X5: [hasse_diagram] leaves the graph bundle of the diagram as it finds
    it: [orig_g] and [orig_gm] return what they returned before (the null
    pointer for a fresh diagram), and [num_vertices] its old value, however
    many vertices were added. *)
Theorem hasse_diagram_keeps_bundle (hasse0 : HDGraph) (g : RBGraph) (hasse : HDGraph) :
  hasse_diagram hasse0 g = Some hasse ->
  orig_g hasse = orig_g hasse0 /\
  orig_gm hasse = orig_gm hasse0 /\
  num_vertices hasse = num_vertices hasse0.
Proof.
  intros Hh. apply hasse_diagram_Some in Hh as (sets & v_map & pairs & _ & _ & ->).
  unfold orig_g, orig_gm, num_vertices.
  rewrite (proj1 (proj2 (reduce_vertices_sub _ _))), build_pairs_property. auto.
Qed.

Lemma hasse_diagram_keeps_bundle_witness :
  exists hasse,
    hasse_diagram (empty_diagram 0) Fixtures.chain_graph = Some hasse /\
    orig_g hasse = None /\ num_vertices hasse = 0 /\ length (hd_vertices hasse) = 3.
Proof.
  eexists. split; [vm_compute; reflexivity|].
  destruct (hasse_diagram_keeps_bundle (empty_diagram 0) Fixtures.chain_graph _ eq_refl)
    as (Hg & _ & Hn).
  split; [exact Hg|]. split; [exact Hn|reflexivity].
Defined.

(** *** The diagram is the Hasse diagram of the inclusion order *)

Lemma strictly_included_length (a b : list string) :
  strictly_included a b = true -> NoDup a -> length a < length b.
Proof.
  intros Hs Hnd. apply strictly_included_spec in Hs as [Hsub (c & Hcb & Hca)].
  assert (Hle : length (c :: a) <= length b).
  { apply submseteq_length, NoDup_submseteq; [now apply NoDup_cons|].
    intros x Hx. apply elem_of_cons in Hx as [->|Hx]; auto. }
  simpl in Hle. lia.
Qed.

Lemma StronglySorted_lookup_lt {A} (R : A -> A -> Prop) (l : list A) :
  StronglySorted R l ->
  forall i j x y, i < j -> l !! i = Some x -> l !! j = Some y -> R x y.
Proof.
  induction 1 as [|z l Hs IH Hz]; intros i j x y Hij Hi Hj; [inversion Hi|].
  destruct j as [|j]; [lia|]. destruct i as [|i].
  - injection Hi as <-. rewrite Forall_forall in Hz. apply Hz.
    eapply list_elem_of_lookup_2. exact Hj.
  - apply (IH i j); [lia|assumption|assumption].
Qed.

(** X6: when no species of [g] has two adjacent vertices of the same name,
    there is a path from a vertex [u] to a vertex [v] of the returned
    diagram exactly when the character names of [u] are strictly included in
    those of [v]; sorting the species by their number of characters is what
    makes every smaller set come first. *)
Theorem hasse_diagram_is_inclusion_order (g : RBGraph) (n : nat) (hasse : HDGraph)
    (u v : HDVertex) :
  hasse_diagram (empty_diagram n) g = Some hasse ->
  (forall s, s ∈ species_of g -> NoDup (adjacent_names g s)) ->
  u < length (hd_vertices hasse) -> v < length (hd_vertices hasse) ->
  reachable hasse u v <->
  strictly_included (characters (vertex_bundle hasse u))
                    (characters (vertex_bundle hasse v)) = true.
Proof.
  intros Hh Hnodup. apply hasse_diagram_Some in Hh as (sets & v_map & pairs & Hc & HF & ->).
  destruct (sorted_pairs g sets v_map pairs Hc HF) as (vs & Hperm & Hsorted & Hpairs).
  set (h1 := build_pairs 0 pairs (empty_diagram n)).
  pose proof (closed_diagram_build_pairs_empty pairs n) as Hclosed. fold h1 in Hclosed.
  destruct (reduce_vertices_sub (vertices h1) h1) as (Hv & _ & _).
  unfold vertex_bundle. rewrite Hv. fold (vertex_bundle h1 u) (vertex_bundle h1 v).
  intros Hu Hv'.
  assert (Hfwd : forall a b, has_edge h1 a b -> a < b /\ b < length (hd_vertices h1)).
  { intros a b Hab. destruct (closed_diagram_has_edge _ _ _ Hclosed Hab) as (? & ? & _). now split. }
  split.
  - intros [m Hp]. apply (path_sub h1) in Hp; [|apply reduce_vertices_has_edge].
    now apply (closed_diagram_path _ _ _ _ Hclosed) in Hp.
  - intros Hs.
    assert (Hasc : ascending_characters h1).
    { subst h1. rewrite Hpairs. apply build_pairs_ascending.
      - eapply StronglySorted_fmap; [|exact Hsorted].
        intros a b Hab. cbn [snd]. unfold adjacent_names. now rewrite !length_fmap.
      - constructor.
      - intros l p Hl. inversion Hl. }
    destruct (lookup_lt_is_Some_2 _ _ Hu) as [hu Hhu].
    destruct (lookup_lt_is_Some_2 _ _ Hv') as [hv Hhv].
    assert (Hbu : vertex_bundle h1 u = hu) by (apply list_lookup_total_correct; exact Hhu).
    assert (Hbv : vertex_bundle h1 v = hv) by (apply list_lookup_total_correct; exact Hhv).
    assert (Hnd : NoDup (characters hu)).
    { assert (Hl : characters hu ∈ characters <$> hd_vertices h1)
        by (apply list_elem_of_fmap_2; eapply list_elem_of_lookup_2; exact Hhu).
      apply build_pairs_characters in Hl as [Hl|Hl]; [inversion Hl|].
      rewrite Hpairs, <- list_fmap_compose in Hl.
      apply list_elem_of_fmap in Hl as (s & -> & Hs'). apply Hnodup. now rewrite <- Hperm. }
    rewrite Hbu, Hbv in Hs.
    pose proof (strictly_included_length _ _ Hs Hnd) as Hlen.
    assert (Huv : u < v).
    { destruct (Nat.lt_trichotomy u v) as [Hlt|[->|Hgt]]; [assumption| |].
      - rewrite Hhu in Hhv. injection Hhv as ->. lia.
      - pose proof (StronglySorted_lookup_lt _ _ Hasc v u (characters hv) (characters hu) Hgt) as Hle.
        rewrite !list_lookup_fmap, Hhu, Hhv in Hle. specialize (Hle eq_refl eq_refl). lia. }
    apply (reduce_vertices_reachable h1 Hfwd (v - u)); [lia|].
    apply (edges_complete _ Hclosed); [assumption|assumption|now rewrite Hbu, Hbv].
Qed.

Lemma hasse_diagram_is_inclusion_order_witness :
  exists hasse,
    hasse_diagram (empty_diagram 0) Fixtures.chain_graph = Some hasse /\
    reachable hasse 0 2.
Proof.
  eexists. split; [vm_compute; reflexivity|].
  apply (hasse_diagram_is_inclusion_order Fixtures.chain_graph 0 _ 0 2 eq_refl).
  - intros s Hs. apply list_elem_of_In in Hs. vm_compute in Hs.
    destruct Hs as [<-|[<-|[<-|Hs]]]; [| | |contradiction]; compute_done.
  - vm_compute. lia.
  - vm_compute. lia.
  - reflexivity.
Defined.

(** *** The edges of the diagram that [hasse_diagram] returns *)

Lemma reduce_out_edges_sublist (ie : HDEdge) (oes : list HDEdge) :
  forall hasse, hd_edges (reduce_out_edges ie oes hasse) `sublist_of` hd_edges hasse.
Proof.
  induction oes as [|oe oes IH]; intros hasse; cbn [reduce_out_edges]; [reflexivity|].
  unfold edge. destruct (negb _); [apply IH|].
  etransitivity; [apply IH|]. unfold remove_edge. cbn [hd_edges]. apply sublist_filter.
Qed.

Lemma reduce_in_edges_sublist (u : HDVertex) (ies : list HDEdge) :
  forall hasse, hd_edges (reduce_in_edges u ies hasse) `sublist_of` hd_edges hasse.
Proof.
  induction ies as [|ie ies IH]; intros hasse; cbn [reduce_in_edges]; [reflexivity|].
  etransitivity; [apply IH|apply reduce_out_edges_sublist].
Qed.

(** The closing loop keeps the edges that stay in their order. *)
Lemma reduce_vertices_sublist (us : list HDVertex) :
  forall hasse, hd_edges (reduce_vertices us hasse) `sublist_of` hd_edges hasse.
Proof.
  induction us as [|u us IH]; intros hasse; cbn [reduce_vertices]; [reflexivity|].
  etransitivity; [apply IH|]. unfold reduce_vertex. destruct (_ || _); [reflexivity|].
  apply reduce_in_edges_sublist.
Qed.

(** X7: in the returned diagram every edge leads from a vertex to one that
    was created later, no two edges have the same source and target, and no
    label is empty. *)
Theorem hasse_diagram_edges (g : RBGraph) (n : nat) (hasse : HDGraph) :
  hasse_diagram (empty_diagram n) g = Some hasse ->
  NoDup (fst <$> hd_edges hasse) /\
  forall e p, (e, p) ∈ hd_edges hasse ->
    fst e < snd e /\ snd e < length (hd_vertices hasse) /\ signedcharacters p <> [].
Proof.
  intros Hh. apply hasse_diagram_Some in Hh as (sets & v_map & pairs & _ & _ & ->).
  set (h1 := build_pairs 0 pairs (empty_diagram n)).
  pose proof (closed_diagram_build_pairs_empty pairs n) as Hclosed. fold h1 in Hclosed.
  destruct (reduce_vertices_sub (vertices h1) h1) as (Hv & _ & Hsub).
  split.
  - eapply sublist_NoDup; [exact (edges_nodup _ Hclosed)|].
    apply fmap_sublist, reduce_vertices_sublist.
  - intros e p Hin. apply Hsub in Hin. rewrite Hv.
    destruct (edges_forward _ Hclosed _ _ Hin) as [H1 H2].
    destruct (edges_sound _ Hclosed _ _ Hin) as [Hs Hl].
    split; [assumption|]. split; [assumption|].
    apply strictly_included_missing in Hs as [_ Hm]. rewrite Hl. unfold gained.
    destruct (missing _ _); [congruence|discriminate].
Qed.

Lemma hasse_diagram_edges_witness :
  exists hasse,
    hasse_diagram (empty_diagram 0) Fixtures.chain_graph = Some hasse /\
    NoDup (fst <$> hd_edges hasse).
Proof.
  eexists. split; [vm_compute; reflexivity|].
  exact (proj1 (hasse_diagram_edges Fixtures.chain_graph 0 _ eq_refl)).
Defined.

(** *** [find_source] *)

Lemma find_source_loop_spec (hasse : HDGraph) (n : nat) :
  forall v,
    v <= find_source_loop n v hasse <= v + n /\
    (find_source_loop n v hasse < v + n -> in_degree (find_source_loop n v hasse) hasse = 0) /\
    (forall x, v <= x < find_source_loop n v hasse -> in_degree x hasse <> 0).
Proof.
  induction n as [|n IH]; intros v; cbn [find_source_loop].
  - split; [lia|]. split; intros; lia.
  - destruct (Nat.eqb_spec (in_degree v hasse) 0) as [Hz|Hnz].
    + split; [lia|]. split; [auto|]. intros; lia.
    + destruct (IH (S v)) as (Hr & Hfound & Hbefore). split; [lia|]. split.
      * intros Hlt. apply Hfound. lia.
      * intros x Hx. destruct (Nat.eq_dec x v) as [->|Hne]; [assumption|]. apply Hbefore. lia.
Qed.

(** X8: for a range that is in order, [find_source] returns a position of
    the range or its end; a position short of the end is a vertex without
    in-edges, and every vertex of the range before the position returned has
    an in-edge. *)
Theorem find_source_first (v v_end : HDVertex) (hasse : HDGraph) :
  v <= v_end ->
  v <= find_source v v_end hasse <= v_end /\
  (find_source v v_end hasse < v_end -> in_degree (find_source v v_end hasse) hasse = 0) /\
  (forall x, v <= x < find_source v v_end hasse -> in_degree x hasse <> 0).
Proof.
  intros Hle. unfold find_source.
  destruct (find_source_loop_spec hasse (v_end - v) v) as (Hr & Hfound & Hbefore).
  replace (v + (v_end - v)) with v_end in * by lia. auto.
Qed.

Lemma find_source_first_witness :
  1 <= find_source 1 2 Fixtures.two_vertex_diagram <= 2 /\
  forall x, 1 <= x < find_source 1 2 Fixtures.two_vertex_diagram ->
            in_degree x Fixtures.two_vertex_diagram <> 0.
Proof.
  destruct (find_source_first 1 2 Fixtures.two_vertex_diagram) as (Hr & _ & Hbefore); [lia|].
  split; assumption.
Defined.

(** X9: in a diagram that [hasse_diagram] returns, the first vertex is a
    source, and [find_source] run over all the vertices returns it. *)
Theorem find_source_of_hasse_diagram (g : RBGraph) (n : nat) (hasse : HDGraph) :
  hasse_diagram (empty_diagram n) g = Some hasse ->
  hd_vertices hasse <> [] ->
  in_degree 0 hasse = 0 /\
  find_source 0 (length (hd_vertices hasse)) hasse = 0.
Proof.
  intros Hh Hne. apply hasse_diagram_Some in Hh as (sets & v_map & pairs & _ & _ & ->).
  set (h1 := build_pairs 0 pairs (empty_diagram n)) in *.
  pose proof (closed_diagram_build_pairs_empty pairs n) as Hclosed. fold h1 in Hclosed.
  set (hasse := reduce_vertices (vertices h1) h1) in *.
  assert (Hz : in_degree 0 hasse = 0).
  { unfold in_degree. destruct (in_edges 0 hasse) as [|[a b] l] eqn:Hin; [reflexivity|].
    exfalso. assert (Hab : (a, b) ∈ in_edges 0 hasse) by (rewrite Hin; apply list_elem_of_here).
    unfold in_edges in Hab. apply list_elem_of_filter in Hab as [Hb Hab].
    unfold target in Hb. simpl in Hb. subst b.
    apply (reduce_vertices_has_edge (vertices h1) h1 a 0) in Hab.
    apply (closed_diagram_has_edge _ _ _ Hclosed) in Hab. lia. }
  split; [exact Hz|]. unfold find_source. rewrite Nat.sub_0_r.
  destruct (length (hd_vertices hasse)) as [|k] eqn:Hk.
  - destruct (hd_vertices hasse); [congruence|discriminate].
  - cbn [find_source_loop]. now rewrite Hz.
Qed.

Lemma find_source_of_hasse_diagram_witness :
  exists hasse,
    hasse_diagram (empty_diagram 0) Fixtures.chain_graph = Some hasse /\
    find_source 0 3 hasse = 0.
Proof.
  eexists. split; [vm_compute; reflexivity|].
  refine (proj2 (find_source_of_hasse_diagram Fixtures.chain_graph 0 _ eq_refl _)).
  discriminate.
Defined.

(** *** [is_included] looks at elements only *)

(** X10: [is_included] does not depend on the order of its arguments or on
    how often they repeat a name: lists with the same elements give the same
    answer. *)
Theorem is_included_same_elements (a a' b b' : list string) :
  (forall x, x ∈ a <-> x ∈ a') ->
  (forall x, x ∈ b <-> x ∈ b') ->
  is_included a b = is_included a' b'.
Proof.
  intros Ha Hb.
  destruct (is_included a b) eqn:H1; destruct (is_included a' b') eqn:H2; try reflexivity.
  - rewrite is_included_true in H1.
    assert (H : is_included a' b' = true)
      by (apply is_included_true; intros x Hx; apply Hb, H1, Ha, Hx).
    congruence.
  - rewrite is_included_true in H2.
    assert (H : is_included a b = true)
      by (apply is_included_true; intros x Hx; apply Hb, H2, Ha, Hx).
    congruence.
Qed.

Lemma is_included_same_elements_witness :
  is_included ["c1"; "c2"; "c1"] ["c3"; "c2"; "c1"] = is_included ["c2"; "c1"] ["c1"; "c2"; "c3"].
Proof.
  apply is_included_same_elements; intros x; rewrite !elem_of_cons, !elem_of_nil; tauto.
Defined.

(** *** [add_vertex] and [add_edge] on the diagram *)

(** X11: [add_vertex] returns a descriptor that the diagram did not have,
    the new vertex holds the two lists it was given, and the vertices and
    edges that were there are as before. *)
Theorem add_vertex_lookup (sp chars : list string) (hasse hasse' : HDGraph) (v : HDVertex) :
  add_vertex sp chars hasse = (v, hasse') ->
  (v ∉ vertices hasse) /\
  vertices hasse' = vertices hasse ++ [v] /\
  vertex_bundle hasse' v = {| species := sp; characters := chars |} /\
  (forall j, j ∈ vertices hasse -> vertex_bundle hasse' j = vertex_bundle hasse j) /\
  hd_edges hasse' = hd_edges hasse.
Proof.
  unfold add_vertex, boost_add_vertex, update_vertex. cbn [hd_vertices hd_edges hd_property].
  rewrite !alter_snoc. cbn. intros [= <- <-]. unfold vertices, vertex_bundle. cbn [hd_vertices hd_edges].
  split; [rewrite elem_of_seq; lia|]. split.
  - rewrite length_app. cbn [length]. rewrite Nat.add_1_r, seq_S. reflexivity.
  - split; [now rewrite list_lookup_total_middle|]. split; [|reflexivity].
    intros j Hj. apply elem_of_seq in Hj. apply lookup_total_app_l. lia.
Qed.

Lemma add_vertex_lookup_witness :
  vertex_bundle (snd (add_vertex ["s3"] ["c1"; "c2"; "c3"] Fixtures.two_vertex_diagram)) 2 =
    {| species := ["s3"]; characters := ["c1"; "c2"; "c3"] |}.
Proof.
  destruct (add_vertex_lookup ["s3"] ["c1"; "c2"; "c3"] Fixtures.two_vertex_diagram _ _ eq_refl)
    as (_ & _ & H & _).
  exact H.
Defined.

Lemma update_edge_update_edge (f f' : list SignedCharacter -> list SignedCharacter) (e : HDEdge)
    (hasse : HDGraph) :
  update_edge f e (update_edge f' e hasse) = update_edge (fun l => f (f' l)) e hasse.
Proof.
  unfold update_edge. cbn [hd_vertices hd_edges hd_property]. f_equal.
  rewrite <- list_fmap_compose. apply list_fmap_ext. intros i [e' p] _. cbn.
  destruct (decide (e' = e)) as [->|Hne].
  - rewrite (bool_decide_eq_true_2 (e = e)) by reflexivity. cbn.
    rewrite (bool_decide_eq_true_2 (e = e)) by reflexivity. reflexivity.
  - rewrite (bool_decide_eq_false_2 (e' = e)) by assumption. cbn.
    rewrite (bool_decide_eq_false_2 (e' = e)) by assumption. reflexivity.
Qed.

(** X12: adding the same edge twice with two labels is adding it once with
    the second label: the second call finds the edge (flag false) and the
    first label is gone. *)
Theorem add_edge_last_label_wins (u v : HDVertex) (l1 l2 : list SignedCharacter)
    (hasse : HDGraph) :
  snd (fst (add_edge u v l2 (snd (add_edge u v l1 hasse)))) = false /\
  snd (add_edge u v l2 (snd (add_edge u v l1 hasse))) = snd (add_edge u v l2 hasse).
Proof.
  assert (Hhas : forall l h, has_edge (snd (add_edge u v l h)) u v).
  { intros l h. destruct (add_edge u v l h) as [[e b] h'] eqn:Heq.
    apply add_edge_spec in Heq. cbn. tauto. }
  assert (Hsecond : forall h, has_edge h u v ->
            add_edge u v l2 h = ((u, v), false, update_edge (fun _ => l2) (u, v) h)).
  { intros h Hh. unfold add_edge, boost_add_edge. now rewrite bool_decide_eq_true_2. }
  rewrite (Hsecond _ (Hhas l1 hasse)). cbn [fst snd]. split; [reflexivity|].
  unfold add_edge, boost_add_edge. case_bool_decide; cbn [fst snd]; apply update_edge_update_edge.
Qed.

(** *** Printing a signed character *)

Lemma append_last_inj (s1 s2 : string) (c1 c2 : Ascii.ascii) :
  s1 +:+ String c1 "" = s2 +:+ String c2 "" -> s1 = s2 /\ c1 = c2.
Proof.
  revert s2. induction s1 as [|a s1 IH]; intros [|b s2] Heq.
  - now injection Heq as ->.
  - cbv [String.append] in Heq. fold String.append in Heq. injection Heq as -> Heq.
    destruct s2; discriminate.
  - cbv [String.append] in Heq. fold String.append in Heq. injection Heq as -> Heq.
    destruct s1; discriminate.
  - cbv [String.append] in Heq. fold String.append in Heq. injection Heq as -> Heq.
    destruct (IH _ Heq) as [-> ->]. auto.
Qed.

(** X13: two signed characters that print the same are the same: the last
    character of the output gives the state and the rest is the name. *)
Theorem print_SignedCharacter_inj (a b : SignedCharacter) :
  print_SignedCharacter a = print_SignedCharacter b -> a = b.
Proof.
  unfold print_SignedCharacter, print_State.
  destruct a as [na sa], b as [nb sb]; cbn [character state].
  destruct sa, sb; intros Heq; apply append_last_inj in Heq as [-> Hc];
    first [reflexivity|discriminate].
Qed.

Lemma print_SignedCharacter_inj_witness :
  {| character := "c" +:+ "1"; state := lose |} = {| character := "c1"; state := lose |}.
Proof.
  apply print_SignedCharacter_inj. reflexivity.
Defined.

(** *** The driver: exit codes, aborts and streams *)

Section DriverMore.
Import Ppp.

Variable store : list string -> string + variables_map.
Variable read_graph : string -> string + RBGraph.
Variable reduce : settings -> RBGraph -> string * reduce_result.
Variable check_reduction : string -> string -> bool.
Variable NoReduction_what : string.
Variable general_options : string.

Local Abbreviation process_file :=
  (process_file read_graph reduce check_reduction NoReduction_what).
Local Abbreviation process_files :=
  (process_files read_graph reduce check_reduction NoReduction_what).
Local Abbreviation main :=
  (main store read_graph reduce check_reduction NoReduction_what general_options).
Local Abbreviation contained := (contained read_graph reduce).

Lemma process_files_outcome (cfg : settings) (fs : list string) :
  forall o, snd (process_files cfg fs o) = Returns 0 \/ snd (process_files cfg fs o) = Terminates.
Proof.
  induction fs as [|f fs IH]; intros o; cbn [Ppp.process_files]; [now left|].
  destruct (process_file cfg f o) as [o1 []]; [apply IH|now right].
Qed.

(** X14: [main] returns 1 exactly when it does not get to the loop over the
    files: the parser throws, the two options conflict, [--help] is given or
    no file is; and then it has written nothing to the standard output. *)
Theorem main_returns_1 (argv0 : string) (args : list string) :
  (snd (main argv0 args) = Returns 1 <->
   match store args with
   | inl _ => True
   | inr vm => is_Some (conflicting_options vm "exponential" "interactive") \/
               is_Some (vm !! "help") \/ vm !! "files" = None
   end) /\
  (snd (main argv0 args) = Returns 1 -> cout (fst (main argv0 args)) = "").
Proof.
  unfold Ppp.main, count.
  destruct (store args) as [what|vm]; [split; [cbn; tauto|reflexivity]|].
  destruct (conflicting_options vm "exponential" "interactive") as [what|];
    [split; [cbn; split; [eauto|reflexivity]|reflexivity]|].
  destruct (vm !! "help") as [vh|]; cbn [Nat.eqb negb];
    [split; [cbn; split; [eauto|reflexivity]|reflexivity]|].
  destruct (vm !! "files") as [vf|]; cbn [Nat.eqb];
    [|split; [cbn; split; [eauto|reflexivity]|reflexivity]].
  assert (Hnot : snd (process_files (notify vm) (files (notify vm)) no_output) <> Returns 1).
  { destruct (process_files_outcome (notify vm) (files (notify vm)) no_output) as [-> | ->];
      discriminate. }
  split; [|intros H; contradiction]. split; [intros H; contradiction|].
  intros [[x Hx]|[[x Hx]|Hx]]; discriminate.
Qed.

(** X16: when the reduction of a file throws something other than
    [NoReduction], nobody catches it: [main] ends there, after the header of
    the file and what [reduce] wrote, and the files after it are not taken
    up, whatever they are. *)
Theorem uncaught_exception_aborts (cfg : settings) (pre : list string) (file : string)
    (post : list string) (o : streams) (g : RBGraph) (trace : string) :
  Forall (contained cfg) pre ->
  read_graph file = inr g ->
  reduce cfg g = (trace, Throws_other) ->
  process_files cfg (pre ++ file :: post) o =
    (after_reduce cfg file trace (fst (process_files cfg pre o)), Terminates).
Proof.
  intros Hpre Hr Hred. revert o.
  induction Hpre as [|f pre Hf Hpre IH]; intros o; cbn [app Ppp.process_files].
  - unfold Ppp.process_file, after_reduce. rewrite Hr, Hred. reflexivity.
  - pose proof (process_file_contained read_graph reduce check_reduction NoReduction_what
                  cfg f o Hf) as Hgo.
    destruct (process_file cfg f o) as [o1 b]. cbn in Hgo. subst b. apply IH.
Qed.

(** X17: the loop writes to the standard error only for a file that cannot
    be read: when every file is read, the standard error is as it was. *)
Theorem cerr_only_for_read_errors (cfg : settings) (fs : list string) (o : streams) :
  Forall (fun f => exists g, read_graph f = inr g) fs ->
  cerr (fst (process_files cfg fs o)) = cerr o.
Proof.
  intros Hall. revert o. induction Hall as [|f fs [g Hg] Hall IH]; intros o;
    cbn [Ppp.process_files]; [reflexivity|].
  assert (Hc : cerr (fst (process_file cfg f o)) = cerr o).
  { unfold Ppp.process_file. rewrite Hg. destruct (reduce cfg g) as [trace r].
    destruct r as [output| |]; [destruct (negb _)| |];
      destruct (logging_enabled cfg); reflexivity. }
  destruct (process_file cfg f o) as [o1 []]; cbn [fst] in *; [now rewrite IH|assumption].
Qed.

End DriverMore.

(** X18: [conflicting_options] throws exactly when the variables map holds
    both options and neither is a default; one option given, or none, is
    accepted. *)
Theorem conflicting_options_iff (vm : gmap string Ppp.variable_value) (opt1 opt2 : string) :
  is_Some (Ppp.conflicting_options vm opt1 opt2) <->
  exists v1 v2, vm !! opt1 = Some v1 /\ Ppp.defaulted v1 = false /\
                vm !! opt2 = Some v2 /\ Ppp.defaulted v2 = false.
Proof.
  unfold Ppp.conflicting_options, Ppp.count, Ppp.at_. rewrite !lookup_total_alt.
  destruct (vm !! opt1) as [v1|]; cbn.
  2:{ split; [intros [x Hx]; discriminate|intros (v1 & v2 & H & _); discriminate]. }
  destruct (Ppp.defaulted v1) eqn:Hd1; cbn.
  { split; [intros [x Hx]; discriminate|]. intros (w1 & w2 & [= <-] & Hw & _). congruence. }
  destruct (vm !! opt2) as [v2|]; cbn.
  2:{ split; [intros [x Hx]; discriminate|intros (w1 & w2 & _ & _ & H & _); discriminate]. }
  destruct (Ppp.defaulted v2) eqn:Hd2; cbn.
  { split; [intros [x Hx]; discriminate|]. intros (w1 & w2 & _ & _ & [= <-] & Hw). congruence. }
  split; [|eauto]. intros _. exists v1, v2. auto.
Qed.

Lemma main_returns_1_witness :
  snd (Ppp.main Fixtures.store Fixtures.read_graph Fixtures.reduce Fixtures.check_reduction
         "Could not reduce graph" "Usage: ppp [OPTION...] FILE..." "ppp" []) = Ppp.Returns 1 /\
  Ppp.cout (fst (Ppp.main Fixtures.store Fixtures.read_graph Fixtures.reduce
                   Fixtures.check_reduction "Could not reduce graph"
                   "Usage: ppp [OPTION...] FILE..." "ppp" [])) = "".
Proof.
  destruct (main_returns_1 Fixtures.store Fixtures.read_graph Fixtures.reduce
              Fixtures.check_reduction "Could not reduce graph"
              "Usage: ppp [OPTION...] FILE..." "ppp" []) as [H1 H2].
  assert (H : snd (Ppp.main Fixtures.store Fixtures.read_graph Fixtures.reduce
                     Fixtures.check_reduction "Could not reduce graph"
                     "Usage: ppp [OPTION...] FILE..." "ppp" []) = Ppp.Returns 1).
  { apply H1. cbn. right. right. reflexivity. }
  split; [exact H|exact (H2 H)].
Defined.

Lemma uncaught_exception_aborts_witness :
  Ppp.process_files Fixtures.read_graph Fixtures.reduce_other Fixtures.check_reduction
      "Could not reduce graph" Fixtures.plain ["missing.txt"; "good.txt"; "later.txt"]
      Ppp.no_output =
    ({| Ppp.cout := "File (missing.txt)File (good.txt)";
        Ppp.cerr := Ppp.CR +:+ "No (missing.txt) Failed to read graph from file" +:+ Ppp.endl |},
     Ppp.Terminates).
Proof.
  change ["missing.txt"; "good.txt"; "later.txt"]
    with (["missing.txt"] ++ "good.txt" :: ["later.txt"]).
  rewrite (uncaught_exception_aborts Fixtures.read_graph Fixtures.reduce_other
             Fixtures.check_reduction "Could not reduce graph" Fixtures.plain
             ["missing.txt"] "good.txt" ["later.txt"] Ppp.no_output
             Fixtures.collapse_graph "").
  - reflexivity.
  - constructor; [|constructor]. intros g Hg. discriminate.
  - reflexivity.
  - reflexivity.
Defined.

Lemma cerr_only_for_read_errors_witness :
  Ppp.cerr (fst (Ppp.process_files Fixtures.read_graph Fixtures.reduce Fixtures.check_reduction
                   "Could not reduce graph" Fixtures.plain ["good.txt"; "rejected.txt"]
                   Ppp.no_output)) = "".
Proof.
  rewrite (cerr_only_for_read_errors Fixtures.read_graph Fixtures.reduce
             Fixtures.check_reduction "Could not reduce graph" Fixtures.plain).
  - reflexivity.
  - repeat constructor; exists Fixtures.collapse_graph; reflexivity.
Defined.
